(** * Minesweeper knowledge base: a shallow embedding of [minesweeper.py]

    The classes [Minesweeper], [Sentence] and [MinesweeperAI] are embedded as
    records with explicit state passing.  Python sets of cells are finite sets
    ([gset]) of integer pairs, Python integers are [Z], and the list
    [self.knowledge] is a [list] whose positions play the role of the object
    references the source shares between [self.knowledge], the local variable
    [sentence] and [final_knowledge]. *)

From Stdlib Require Import ZArith Lia.
From stdpp Require Import base option list gmap fin_sets.

Local Open Scope Z_scope.
#[local] Set Warnings "-clear-no-such-hyp".

(** A board cell [(i, j)]. *)
Abbreviation Cell := (Z * Z)%type.

(** [range(a, b)]. *)
Definition range (a b : Z) : list Z := seqZ a (b - a).

(** The nine positions visited by
    [for row in range(i - 1, i + 2): for col in range(j - 1, j + 2)],
    in the order the loops visit them. *)
Definition block (cell : Cell) : list Cell :=
  row ← range (cell.1 - 1) (cell.1 + 2);
  col ← range (cell.2 - 1) (cell.2 + 2);
  [(row, col)].

(** [0 <= row < height and 0 <= col < width]. *)
Definition in_bounds (height width : Z) (c : Cell) : Prop :=
  (0 ≤ c.1 < height) ∧ (0 ≤ c.2 < width).

Global Instance in_bounds_dec height width c : Decision (in_bounds height width c).
Proof. unfold in_bounds. apply _. Defined.

(** Python truthiness of a value that is either [None] or a set: [None] and
    the empty set are both false. *)
Definition truthy (o : option (gset Cell)) : bool :=
  match o with
  | Some X => bool_decide (X ≠ ∅)
  | None => false
  end.

(** ** class Sentence *)
Module Sentence.

Record t : Type := Build { cells : gset Cell; count : Z }.

(** [__eq__]: same cell set and same count. *)
Global Instance eq_dec : EqDecision t.
Proof. solve_decision. Defined.

(** [known_mines]: [self.cells] when [len(self.cells) == self.count]. *)
Definition known_mines (s : t) : option (gset Cell) :=
  if decide (Z.of_nat (size (cells s)) = count s) then Some (cells s) else None.

(** [known_safes]: [self.cells] when [self.count == 0]. *)
Definition known_safes (s : t) : option (gset Cell) :=
  if decide (count s = 0) then Some (cells s) else None.

(** One iteration of the loop of [mark_mine]; the accumulator is the pair
    [(new_cells, self.count)]. *)
Definition mark_mine_step (cell : Cell) (acc : gset Cell * Z) (item : Cell)
  : gset Cell * Z :=
  if decide (item ≠ cell) then ({[item]} ∪ acc.1, acc.2)
  else (acc.1, acc.2 - 1).

Definition mark_mine (s : t) (cell : Cell) : t :=
  let r := foldl (mark_mine_step cell) (∅, count s) (elements (cells s)) in
  Build r.1 r.2.

(** One iteration of the loop of [mark_safe]. *)
Definition mark_safe_step (cell : Cell) (new_cells : gset Cell) (item : Cell)
  : gset Cell :=
  if decide (item ≠ cell) then {[item]} ∪ new_cells else new_cells.

Definition mark_safe (s : t) (cell : Cell) : t :=
  Build (foldl (mark_safe_step cell) ∅ (elements (cells s))) (count s).

End Sentence.

(** ** class Minesweeper *)
Module Minesweeper.

(** [self.board] is a list of rows of booleans; [__init__] builds [height]
    rows of [width] entries. *)
Record t : Type := Build { height : Z; width : Z; board : list (list bool) }.

(** [l[i]] on a Python list: a negative index counts from the end, and
    [None] stands for [IndexError]. *)
Definition py_index {A : Type} (l : list A) (i : Z) : option A :=
  if decide (0 ≤ i) then l !! Z.to_nat i
  else if decide (0 ≤ Z.of_nat (length l) + i)
       then l !! Z.to_nat (Z.of_nat (length l) + i)
       else None.

(** [is_mine]: [self.board[i][j]]. *)
Definition is_mine (g : t) (cell : Cell) : option bool :=
  row ← py_index (board g) cell.1; py_index row cell.2.

(** One iteration of the loops of [nearby_mines] on the running [count]. *)
Definition nearby_step (g : t) (cell : Cell) (acc : option Z) (p : Cell)
  : option Z :=
  count ← acc;
  if decide (p = cell) then Some count
  else if decide (in_bounds (height g) (width g) p) then
    b ← is_mine g p; Some (if b : bool then count + 1 else count)
  else Some count.

Definition nearby_mines (g : t) (cell : Cell) : option Z :=
  foldl (nearby_step g cell) (Some 0) (block cell).

(** The whole object: the board with its dimensions, and the sets
    [self.mines] and [self.mines_found]. *)
Record game : Type := Game {
  grid : t;
  mines : gset Cell;
  mines_found : gset Cell
}.

(** The inner loop of [__init__]: a row of [width] entries [False]. *)
Definition empty_row (width : Z) : list bool :=
  foldl (λ row _, row ++ [false]) [] (range 0 width).

(** The outer loop of [__init__]: [height] such rows. *)
Definition empty_board (height width : Z) : list (list bool) :=
  foldl (λ board _, board ++ [empty_row width]) [] (range 0 height).

(** [self.board[i][j] = True], for indices that are not negative. *)
Definition set_mine (board : list (list bool)) (c : Cell) : list (list bool) :=
  alter (λ row, <[Z.to_nat c.2 := true]> row) (Z.to_nat c.1) board.

(** The loop [while len(self.mines) != mines] of [__init__].  Each element
    of [draws] is the pair [random.randrange(height)],
    [random.randrange(width)] of one iteration, so it has to be a cell of the
    board.  The result is [None] when the loop has not exited after all the
    draws given (or when a draw is not a value [randrange] can return, or
    the board has no such entry). *)
Fixpoint place_mines (height width mines : Z) (draws : list Cell)
    (board : list (list bool)) (placed : gset Cell)
  : option (list (list bool) * gset Cell) :=
  if decide (Z.of_nat (size placed) = mines) then Some (board, placed)
  else
    match draws with
    | [] => None
    | c :: draws =>
        if decide (in_bounds height width c) then
          match is_mine (Build height width board) c with
          | Some false =>
              place_mines height width mines draws
                (set_mine board c) ({[c]} ∪ placed)
          | Some true => place_mines height width mines draws board placed
          | None => None
          end
        else None
    end.

(** [__init__], given the random draws. *)
Definition init (height width mines : Z) (draws : list Cell) : option game :=
  r ← place_mines height width mines draws (empty_board height width) ∅;
  Some (Game (Build height width r.1) r.2 ∅).


End Minesweeper.

(** ** class MinesweeperAI *)
Module MinesweeperAI.

Record t : Type := Build {
  height : Z;
  width : Z;
  moves_made : gset Cell;
  mines : gset Cell;
  safes : gset Cell;
  knowledge : list Sentence.t
}.

(** [__init__]. *)
Definition init (height width : Z) : t := Build height width ∅ ∅ ∅ [].

Definition set_moves_made (ai : t) (X : gset Cell) : t :=
  Build (height ai) (width ai) X (mines ai) (safes ai) (knowledge ai).

Definition set_knowledge (ai : t) (l : list Sentence.t) : t :=
  Build (height ai) (width ai) (moves_made ai) (mines ai) (safes ai) l.

(** [mark_mine]: the loop calls [sentence.mark_mine(cell)] on every object
    of [self.knowledge], in place. *)
Definition mark_mine (ai : t) (cell : Cell) : t :=
  Build (height ai) (width ai) (moves_made ai) ({[cell]} ∪ mines ai) (safes ai)
        ((λ sentence, Sentence.mark_mine sentence cell) <$> knowledge ai).

Definition mark_safe (ai : t) (cell : Cell) : t :=
  Build (height ai) (width ai) (moves_made ai) (mines ai) ({[cell]} ∪ safes ai)
        ((λ sentence, Sentence.mark_safe sentence cell) <$> knowledge ai).

(** One iteration of the loops of [get_enclosed_cells] on the pair
    [(enclosed_cells, count)]. *)
Definition enclosed_step (ai : t) (cell : Cell) (acc : list Cell * Z) (p : Cell)
  : list Cell * Z :=
  let enclosed_cells :=
    if decide (in_bounds (height ai) (width ai) p ∧ (p ≠ cell)
               ∧ (p ∉ safes ai) ∧ (p ∉ mines ai))
    then acc.1 ++ [p] else acc.1 in
  let count := if decide (p ∈ mines ai) then acc.2 - 1 else acc.2 in
  (enclosed_cells, count).

Definition get_enclosed_cells (ai : t) (cell : Cell) (count : Z) : list Cell * Z :=
  foldl (enclosed_step ai cell) ([], count) (block cell).

(** [for safe_found in X: self.mark_safe(safe_found)]. *)
Definition mark_safe_all (ai : t) (X : gset Cell) : t :=
  foldl mark_safe ai (elements X).

(** [for mine_found in X: self.mark_mine(mine_found)]. *)
Definition mark_mine_all (ai : t) (X : gset Cell) : t :=
  foldl mark_mine ai (elements X).

(** The body of the loop [for s in self.knowledge] of [add_knowledge], at
    position [i] of the list.  [k] is the position of the object the local
    variable [sentence] refers to: it is read from the store at every
    iteration, since the marks of earlier iterations have changed it. *)
Definition conclusion_step (k : nat) (ai : t) (i : nat) : t :=
  match knowledge ai !! i, knowledge ai !! k with
  | Some s, Some sentence =>
      if decide (s = sentence) then ai
      else if decide (Sentence.cells sentence ⊆ Sentence.cells s) then
        let set_diff := Sentence.cells s ∖ Sentence.cells sentence in
        if decide (Sentence.count s = Sentence.count sentence)
        then mark_safe_all ai set_diff
        else if decide (Z.of_nat (size set_diff)
                        = Sentence.count s - Sentence.count sentence)
        then mark_mine_all ai set_diff
        else ai
      else if decide (Sentence.cells s ⊆ Sentence.cells sentence) then
        let set_diff := Sentence.cells sentence ∖ Sentence.cells s in
        if decide (Sentence.count s = Sentence.count sentence)
        then mark_safe_all ai set_diff
        else if decide (Z.of_nat (size set_diff)
                        = Sentence.count sentence - Sentence.count s)
        then mark_mine_all ai set_diff
        else ai
      else ai
  | _, _ => ai
  end.

(** One iteration of the loop of [remove_duplicates]. *)
Definition unique_step (unique_knowledge : list Sentence.t) (s : Sentence.t)
  : list Sentence.t :=
  if decide (s ∉ unique_knowledge) then unique_knowledge ++ [s]
  else unique_knowledge.

Definition remove_duplicates (ai : t) : t :=
  set_knowledge ai (foldl unique_step [] (knowledge ai)).

(** The cells a [for] loop over the result of [known_mines] or [known_safes]
    visits; the loops are only entered when that result is a non-empty set. *)
Definition iterated (o : option (gset Cell)) : list Cell :=
  match o with
  | Some X => elements X
  | None => []
  end.

(** One iteration of the loop of [remove_sures] at position [i] of
    [self.knowledge].  [final_knowledge] holds references to objects of
    [self.knowledge], kept here as their positions: the marks made by later
    iterations reach the objects it refers to. *)
Definition remove_sures_step (st : t * list nat) (i : nat) : t * list nat :=
  match knowledge st.1 !! i with
  | Some s =>
      let final_knowledge := st.2 ++ [i] in
      if truthy (Sentence.known_mines s) then
        (foldl mark_mine st.1 (iterated (Sentence.known_mines s)),
         removelast final_knowledge)
      else if truthy (Sentence.known_safes s) then
        (foldl mark_safe st.1 (iterated (Sentence.known_safes s)),
         removelast final_knowledge)
      else (st.1, final_knowledge)
  | None => st
  end.

Definition remove_sures (ai : t) : t :=
  let st := foldl remove_sures_step (ai, []) (seq 0 (length (knowledge ai))) in
  set_knowledge st.1 (omap (λ i, knowledge st.1 !! i) st.2).

(** The sentence [add_knowledge] builds from the result of
    [get_enclosed_cells]; [Sentence.__init__] turns the list into a set. *)
Definition new_sentence (ai : t) (cell : Cell) (count : Z) : Sentence.t :=
  let r := get_enclosed_cells ai cell count in
  Sentence.Build (list_to_set r.1) r.2.

(** The first two statements of [add_knowledge]:
    [self.mark_safe(cell); self.moves_made.add(cell)]. *)
Definition record_move (ai : t) (cell : Cell) : t :=
  let ai := mark_safe ai cell in
  set_moves_made ai ({[cell]} ∪ moves_made ai).

Definition add_knowledge (ai : t) (cell : Cell) (count : Z) : t :=
  let ai := record_move ai cell in
  let sentence := new_sentence ai cell count in
  let k := length (knowledge ai) in
  let ai := set_knowledge ai (knowledge ai ++ [sentence]) in
  let ai := foldl (conclusion_step k) ai (seq 0 (length (knowledge ai))) in
  let ai := remove_duplicates ai in
  remove_sures ai.

(** [make_safe_move].  [pop] stands for [set.pop()], which removes and
    returns an arbitrary element of a non-empty set; the set it changes is
    the local [safe_cells].  The second component is the state of the
    object after the call. *)
Definition make_safe_move (pop : gset Cell → Cell) (ai : t) : option Cell * t :=
  let safe_cells := safes ai ∖ moves_made ai in
  if decide (safe_cells = ∅) then (None, ai)
  else let move := pop safe_cells in (Some move, ai).

(** A sequence of [add_knowledge] calls. *)
Definition run (ai : t) (probes : list (Cell * Z)) : t :=
  foldl (λ ai p, add_knowledge ai p.1 p.2) ai probes.

(** The cells visited by
    [for i in range(self.height): for j in range(self.width)]. *)
Definition board_cells (ai : t) : list Cell :=
  i ← range 0 (height ai);
  j ← range 0 (width ai);
  [(i, j)].

(** One iteration of the loops of [make_random_move] on [all_moves]. *)
Definition all_moves_step (ai : t) (all_moves : gset Cell) (p : Cell)
  : gset Cell :=
  if decide ((p ∉ mines ai) ∧ (p ∉ moves_made ai)) then {[p]} ∪ all_moves
  else all_moves.

(** [make_random_move].  [choice] stands for
    [random.choice(tuple(all_moves))], which returns some element of a
    non-empty set.  The second component is the state of the object after
    the call. *)
Definition make_random_move (choice : gset Cell → Cell) (ai : t)
  : option Cell * t :=
  let all_moves := foldl (all_moves_step ai) ∅ (board_cells ai) in
  if decide (size all_moves = 0%nat) then (None, ai)
  else let move := choice all_moves in (Some move, ai).

End MinesweeperAI.

(** * Properties of knowledge-base states *)

(** The state of [add_knowledge] when its loop starts: the move is recorded
    and the new sentence is appended to [self.knowledge]. *)
Definition with_new_sentence (ai : MinesweeperAI.t) (cell : Cell) (count : Z)
  : MinesweeperAI.t :=
  let ai := MinesweeperAI.record_move ai cell in
  MinesweeperAI.set_knowledge ai
    (MinesweeperAI.knowledge ai ++ [MinesweeperAI.new_sentence ai cell count]).

(** The three fact sets contain [M], [S] and [V]. *)
Definition grown (M S V : gset Cell) (ai : MinesweeperAI.t) : Prop :=
  (M ⊆ MinesweeperAI.mines ai)
  ∧ (S ⊆ MinesweeperAI.safes ai)
  ∧ (V ⊆ MinesweeperAI.moves_made ai).

(** No cell of a held sentence is a known mine or a known safe cell. *)
Definition unresolved (ai : MinesweeperAI.t) : Prop :=
  ∀ s, s ∈ MinesweeperAI.knowledge ai →
  ∀ c, c ∈ Sentence.cells s →
    (c ∉ MinesweeperAI.mines ai) ∧ (c ∉ MinesweeperAI.safes ai).

(** The knowledge base is for an [h] by [w] board and every cell of a held
    sentence lies on that board. *)
Definition within_grid (h w : Z) (ai : MinesweeperAI.t) : Prop :=
  MinesweeperAI.height ai = h ∧ MinesweeperAI.width ai = w
  ∧ ∀ s, s ∈ MinesweeperAI.knowledge ai →
    ∀ c, c ∈ Sentence.cells s → in_bounds h w c.

(** [p] is in the three by three square centred on [cell]. *)
Definition around (cell p : Cell) : Prop :=
  (cell.1 - 1 ≤ p.1 ≤ cell.1 + 1) ∧ (cell.2 - 1 ≤ p.2 ≤ cell.2 + 1).

Global Instance around_dec cell p : Decision (around cell p).
Proof. unfold around. apply _. Defined.

(** [p] is a neighbour of [cell] on an [h] by [w] board: one of the up to
    eight adjacent positions, [cell] itself excluded. *)
Definition neighbor (h w : Z) (cell p : Cell) : Prop :=
  in_bounds h w p ∧ p ≠ cell ∧ around cell p.

Global Instance neighbor_dec h w cell p : Decision (neighbor h w cell p).
Proof. unfold neighbor. apply _. Defined.

(** The board [g] has a mine at [c]. *)
Definition hazard (g : Minesweeper.t) (c : Cell) : Prop :=
  in_bounds (Minesweeper.height g) (Minesweeper.width g) c
  ∧ Minesweeper.is_mine g c = Some true.

Global Instance hazard_dec g c : Decision (hazard g c).
Proof. unfold hazard. apply _. Defined.

(** The number of cells of [X] that hold a mine of [g]. *)
Definition hazards_in (g : Minesweeper.t) (X : gset Cell) : Z :=
  Z.of_nat (size (filter (hazard g) X)).

(** The call [add_knowledge(cell, count)] reports the board [g] truthfully:
    [cell] is a safe cell of [g], as the docstring of [add_knowledge]
    requires, and [count] is [g.nearby_mines(cell)]. *)
Definition truthful (g : Minesweeper.t) (probe : Cell * Z) : Prop :=
  Minesweeper.is_mine g probe.1 = Some false
  ∧ Minesweeper.nearby_mines g probe.1 = Some probe.2.

(** The knowledge base only holds facts that are true of the board [g]. *)
Definition sound (g : Minesweeper.t) (ai : MinesweeperAI.t) : Prop :=
  MinesweeperAI.height ai = Minesweeper.height g
  ∧ MinesweeperAI.width ai = Minesweeper.width g
  ∧ (∀ s, s ∈ MinesweeperAI.knowledge ai →
          Sentence.count s = hazards_in g (Sentence.cells s))
  ∧ (∀ c, c ∈ MinesweeperAI.mines ai → hazard g c)
  ∧ (∀ c, c ∈ MinesweeperAI.safes ai → ¬ hazard g c).

(** One way [set.pop()] may choose: the first cell [elements] lists. *)
Definition pop_first (X : gset Cell) : Cell := default (0, 0) (head (elements X)).

(** A board with one row of five cells and a mine at [(0, 0)], and the
    counts it gives for the safe cells [(0, 1)] and [(0, 3)]. *)
Definition row_board : Minesweeper.t :=
  Minesweeper.Build 1 5 [[true; false; false; false; false]].

Definition row_probes : list (Cell * Z) := [((0, 1), 1); ((0, 3), 0)].

(** The board of [g] has the shape [Minesweeper.__init__] gives it:
    [height] rows of [width] entries. *)
Definition board_wf (g : Minesweeper.t) : Prop :=
  length (Minesweeper.board g) = Z.to_nat (Minesweeper.height g)
  ∧ Forall (λ row, length row = Z.to_nat (Minesweeper.width g))
           (Minesweeper.board g).

(** Every cell the knowledge base knows about is on the [h] by [w] board,
    except for the cells of the moves themselves, which the caller chooses. *)
Definition on_board (h w : Z) (ai : MinesweeperAI.t) : Prop :=
  within_grid h w ai
  ∧ (∀ c, c ∈ MinesweeperAI.mines ai → in_bounds h w c)
  ∧ (∀ c, c ∈ MinesweeperAI.safes ai →
          in_bounds h w c ∨ c ∈ MinesweeperAI.moves_made ai).

(** The board of a game and its set [self.mines] agree: the board has the
    shape [__init__] gives it, and the set holds exactly the cells of the
    board whose entry is [True]. *)
Definition game_wf (gm : Minesweeper.game) : Prop :=
  board_wf (Minesweeper.grid gm)
  ∧ ∀ c, c ∈ Minesweeper.mines gm ↔ hazard (Minesweeper.grid gm) c.

(** The knowledge base accounts for the cell [c]: it is a known mine, a
    known safe cell, or a cell of a held sentence. *)
Definition accounted (ai : MinesweeperAI.t) (c : Cell) : Prop :=
  c ∈ MinesweeperAI.mines ai ∨ c ∈ MinesweeperAI.safes ai
  ∨ ∃ s, s ∈ MinesweeperAI.knowledge ai ∧ c ∈ Sentence.cells s.

(** * Facts about [Sentence] *)
Section sentence_facts.
Implicit Types (s : Sentence.t) (c cell x : Cell).

Lemma mark_mine_fold_cells cell l acc x :
  x ∈ (foldl (Sentence.mark_mine_step cell) acc l).1
  ↔ x ∈ acc.1 ∨ (x ∈ l ∧ x ≠ cell).
Proof.
  revert acc. induction l as [|y l IH]; intros acc; simpl.
  - set_solver.
  - rewrite IH. unfold Sentence.mark_mine_step.
    case_decide; simpl; set_solver.
Qed.

Lemma mark_mine_fold_count cell l acc :
  NoDup l →
  (foldl (Sentence.mark_mine_step cell) acc l).2
  = acc.2 - (if decide (cell ∈ l) then 1 else 0).
Proof.
  intros Hnd. revert acc.
  induction Hnd as [|y l Hy Hnd IH]; intros acc.
  - simpl. destruct (decide (cell ∈ [])) as [Hin|_]; [|lia].
    by apply elem_of_nil in Hin.
  - cbn [foldl]. rewrite IH. unfold Sentence.mark_mine_step.
    destruct (decide (y ≠ cell)) as [Hne|Heq]; cbn [fst snd].
    + destruct (decide (cell ∈ l)), (decide (cell ∈ y :: l)); set_solver by lia.
    + assert (y = cell) as -> by (destruct (decide (y = cell)); tauto).
      destruct (decide (cell ∈ l)), (decide (cell ∈ cell :: l)); set_solver by lia.
Qed.

Lemma mark_mine_cells s c :
  Sentence.cells (Sentence.mark_mine s c) = Sentence.cells s ∖ {[c]}.
Proof.
  apply set_eq; intros x. unfold Sentence.mark_mine; simpl.
  rewrite mark_mine_fold_cells, elem_of_elements. set_solver.
Qed.

Lemma mark_mine_count s c :
  Sentence.count (Sentence.mark_mine s c)
  = Sentence.count s - (if decide (c ∈ Sentence.cells s) then 1 else 0).
Proof.
  unfold Sentence.mark_mine; simpl.
  rewrite mark_mine_fold_count by apply NoDup_elements. simpl.
  destruct (decide (c ∈ elements (Sentence.cells s))) as [Hin|Hin];
    rewrite elem_of_elements in Hin;
    destruct (decide (c ∈ Sentence.cells s)); tauto || lia.
Qed.

Lemma mark_safe_fold_cells cell l acc x :
  x ∈ foldl (Sentence.mark_safe_step cell) acc l
  ↔ x ∈ acc ∨ (x ∈ l ∧ x ≠ cell).
Proof.
  revert acc. induction l as [|y l IH]; intros acc; simpl.
  - set_solver.
  - rewrite IH. unfold Sentence.mark_safe_step.
    case_decide; set_solver.
Qed.

Lemma mark_safe_cells s c :
  Sentence.cells (Sentence.mark_safe s c) = Sentence.cells s ∖ {[c]}.
Proof.
  apply set_eq; intros x. unfold Sentence.mark_safe; simpl.
  rewrite mark_safe_fold_cells, elem_of_elements. set_solver.
Qed.

Lemma mark_safe_count s c :
  Sentence.count (Sentence.mark_safe s c) = Sentence.count s.
Proof. reflexivity. Qed.

Lemma sentence_eq s1 s2 :
  Sentence.cells s1 = Sentence.cells s2 →
  Sentence.count s1 = Sentence.count s2 → s1 = s2.
Proof. destruct s1, s2; simpl; congruence. Qed.

End sentence_facts.

(** C5. [known_mines] returns the cell set exactly when the count equals
    the number of cells and [None] otherwise; [known_safes] returns the cell
    set exactly when the count is zero and [None] otherwise.  For the
    sentence with no cells and count zero both return the empty set. *)
Theorem known_queries_spec (s : Sentence.t) :
  (Sentence.known_mines s = Some (Sentence.cells s)
   ↔ Z.of_nat (size (Sentence.cells s)) = Sentence.count s)
  ∧ (Sentence.known_mines s = None
     ↔ Z.of_nat (size (Sentence.cells s)) ≠ Sentence.count s)
  ∧ (Sentence.known_safes s = Some (Sentence.cells s) ↔ Sentence.count s = 0)
  ∧ (Sentence.known_safes s = None ↔ Sentence.count s ≠ 0)
  ∧ Sentence.known_mines (Sentence.Build ∅ 0) = Some ∅
  ∧ Sentence.known_safes (Sentence.Build ∅ 0) = Some ∅.
Proof.
  unfold Sentence.known_mines, Sentence.known_safes.
  repeat split; repeat case_decide; simpl in *; try done.
Qed.

(** C6. [Sentence.mark_mine]: a cell of the sentence is removed, the count
    drops by exactly one and every other cell stays; for a cell that is not
    in the sentence, cells and count are unchanged. *)
Theorem sentence_mark_mine_spec (s : Sentence.t) (c : Cell) :
  (c ∈ Sentence.cells s →
     (c ∉ Sentence.cells (Sentence.mark_mine s c))
     ∧ Sentence.count (Sentence.mark_mine s c) = Sentence.count s - 1
     ∧ ∀ x, x ≠ c →
         (x ∈ Sentence.cells (Sentence.mark_mine s c) ↔ x ∈ Sentence.cells s))
  ∧ (c ∉ Sentence.cells s → Sentence.mark_mine s c = s).
Proof.
  split; intros Hc.
  - rewrite mark_mine_cells, mark_mine_count.
    case_decide; [|done]. split; [set_solver|]. split; [done|]. set_solver.
  - apply sentence_eq.
    + rewrite mark_mine_cells. set_solver.
    + rewrite mark_mine_count. case_decide; [done | lia].
Qed.

(** * Loops that preserve a property of the knowledge base

    [add_knowledge] changes the state through [mark_mine], [mark_safe] and
    by replacing [self.knowledge] with a selection of its own sentences.  A
    property [P] kept by these three, for marks on cells allowed by [Qm] (as
    mines) and [Qs] (as safe), is kept by the conclusion loop, by
    [remove_duplicates] and by [remove_sures], as long as the cells these
    loops mark are allowed. *)
Section preservation.
Import MinesweeperAI.

Variable P : MinesweeperAI.t → Prop.
Variables Qm Qs : Cell → Prop.

Hypothesis P_mark_mine : ∀ ai c, P ai → Qm c → P (mark_mine ai c).
Hypothesis P_mark_safe : ∀ ai c, P ai → Qs c → P (mark_safe ai c).
Hypothesis P_select : ∀ ai l,
  P ai → (∀ s, s ∈ l → s ∈ knowledge ai) → P (set_knowledge ai l).
Hypothesis P_subset_safe : ∀ ai s1 s2,
  P ai → s1 ∈ knowledge ai → s2 ∈ knowledge ai →
  Sentence.cells s2 ⊆ Sentence.cells s1 →
  Sentence.count s1 = Sentence.count s2 →
  ∀ c, c ∈ Sentence.cells s1 ∖ Sentence.cells s2 → Qs c.
Hypothesis P_subset_mine : ∀ ai s1 s2,
  P ai → s1 ∈ knowledge ai → s2 ∈ knowledge ai →
  Sentence.cells s2 ⊆ Sentence.cells s1 →
  Z.of_nat (size (Sentence.cells s1 ∖ Sentence.cells s2))
  = Sentence.count s1 - Sentence.count s2 →
  ∀ c, c ∈ Sentence.cells s1 ∖ Sentence.cells s2 → Qm c.
Hypothesis P_known_mines : ∀ ai s,
  P ai → s ∈ knowledge ai →
  Z.of_nat (size (Sentence.cells s)) = Sentence.count s →
  ∀ c, c ∈ Sentence.cells s → Qm c.
Hypothesis P_known_safes : ∀ ai s,
  P ai → s ∈ knowledge ai → Sentence.count s = 0 →
  ∀ c, c ∈ Sentence.cells s → Qs c.

Lemma foldl_preserves {B : Type} (f : t → B → t) (l : list B) (ai : t) :
  (∀ a x, x ∈ l → P a → P (f a x)) → P ai → P (foldl f ai l).
Proof.
  revert ai. induction l as [|x l IH]; intros ai Hf HP; simpl; [done|].
  apply IH.
  - intros a y Hy. apply Hf. by right.
  - apply Hf; [by left | done].
Qed.

Lemma mark_mine_list_preserves ai (l : list Cell) :
  P ai → (∀ c, c ∈ l → Qm c) → P (foldl mark_mine ai l).
Proof. intros HP HQ. apply foldl_preserves; auto. Qed.

Lemma mark_safe_list_preserves ai (l : list Cell) :
  P ai → (∀ c, c ∈ l → Qs c) → P (foldl mark_safe ai l).
Proof. intros HP HQ. apply foldl_preserves; auto. Qed.

Lemma mark_mine_all_preserves ai X :
  P ai → (∀ c, c ∈ X → Qm c) → P (mark_mine_all ai X).
Proof.
  intros HP HQ. apply mark_mine_list_preserves; [done|].
  intros c Hc. apply HQ. by apply elem_of_elements.
Qed.

Lemma mark_safe_all_preserves ai X :
  P ai → (∀ c, c ∈ X → Qs c) → P (mark_safe_all ai X).
Proof.
  intros HP HQ. apply mark_safe_list_preserves; [done|].
  intros c Hc. apply HQ. by apply elem_of_elements.
Qed.

Lemma conclusion_step_preserves k ai i : P ai → P (conclusion_step k ai i).
Proof.
  intros HP. unfold conclusion_step.
  destruct (knowledge ai !! i) as [s|] eqn:Hs; [|done].
  destruct (knowledge ai !! k) as [sentence|] eqn:Hk; [|done].
  apply list_elem_of_lookup_2 in Hs, Hk.
  repeat case_decide; try done.
  - apply mark_safe_all_preserves; eauto.
  - apply mark_mine_all_preserves; eauto.
  - apply mark_safe_all_preserves; eauto.
  - apply mark_mine_all_preserves; eauto.
Qed.

Lemma conclusion_preserves k ai (l : list nat) :
  P ai → P (foldl (conclusion_step k) ai l).
Proof.
  intros HP. apply foldl_preserves; [|done].
  intros a i _. apply conclusion_step_preserves.
Qed.

Lemma unique_step_elem (l acc : list Sentence.t) s :
  s ∈ foldl unique_step acc l → s ∈ acc ∨ s ∈ l.
Proof.
  revert acc. induction l as [|x l IH]; intros acc; simpl; [by left|].
  intros [Hin|Hin]%IH; [|right; by right].
  unfold unique_step in Hin. case_decide; [|by left].
  apply elem_of_app in Hin as [?|?%list_elem_of_singleton]; [by left|].
  subst. right; by left.
Qed.

Lemma remove_duplicates_preserves ai : P ai → P (remove_duplicates ai).
Proof.
  intros HP. apply P_select; [done|].
  intros s [Hs|Hs]%unique_step_elem; [|done]. by apply elem_of_nil in Hs.
Qed.

Lemma truthy_known_mines s :
  truthy (Sentence.known_mines s) = true →
  Sentence.known_mines s = Some (Sentence.cells s)
  ∧ Z.of_nat (size (Sentence.cells s)) = Sentence.count s
  ∧ Sentence.cells s ≠ ∅.
Proof.
  unfold Sentence.known_mines. case_decide; simpl; [|done].
  intros ?%bool_decide_eq_true. done.
Qed.

Lemma truthy_known_safes s :
  truthy (Sentence.known_safes s) = true →
  Sentence.known_safes s = Some (Sentence.cells s)
  ∧ Sentence.count s = 0
  ∧ Sentence.cells s ≠ ∅.
Proof.
  unfold Sentence.known_safes. case_decide; simpl; [|done].
  intros ?%bool_decide_eq_true. done.
Qed.

Lemma remove_sures_step_preserves st i : P st.1 → P (remove_sures_step st i).1.
Proof.
  intros HP. unfold remove_sures_step.
  destruct (knowledge st.1 !! i) as [s|] eqn:Hs; [|done].
  apply list_elem_of_lookup_2 in Hs.
  destruct (truthy (Sentence.known_mines s)) eqn:Hm.
  { apply truthy_known_mines in Hm as (-> & Hm & _). simpl.
    apply mark_mine_list_preserves; [done|].
    intros c Hc%elem_of_elements. eauto. }
  destruct (truthy (Sentence.known_safes s)) eqn:Hf; [|done].
  apply truthy_known_safes in Hf as (-> & Hf & _). simpl.
  apply mark_safe_list_preserves; [done|].
  intros c Hc%elem_of_elements. eauto.
Qed.

Lemma remove_sures_loop_preserves st (l : list nat) :
  P st.1 → P (foldl remove_sures_step st l).1.
Proof.
  revert st. induction l as [|i l IH]; intros st HP; simpl; [done|].
  by apply IH, remove_sures_step_preserves.
Qed.

Lemma remove_sures_preserves ai : P ai → P (remove_sures ai).
Proof.
  intros HP. unfold remove_sures. apply P_select.
  - by apply (remove_sures_loop_preserves (ai, [])).
  - intros s (i & _ & Hi)%list_elem_of_omap.
    by apply list_elem_of_lookup_2 in Hi.
Qed.

(** The part of [add_knowledge] after the new sentence is appended. *)
Lemma inference_preserves k ai (l : list nat) :
  P ai → P (remove_sures (remove_duplicates (foldl (conclusion_step k) ai l))).
Proof.
  intros HP.
  by apply remove_sures_preserves, remove_duplicates_preserves,
    conclusion_preserves.
Qed.

End preservation.

(** * Facts about [MinesweeperAI] *)
Section ai_facts.
Import MinesweeperAI.
Implicit Types (ai : MinesweeperAI.t) (c cell : Cell).

Lemma add_knowledge_eq ai cell count :
  add_knowledge ai cell count
  = let ai' := with_new_sentence ai cell count in
    remove_sures (remove_duplicates
      (foldl (conclusion_step (length (knowledge (record_move ai cell))))
             ai' (seq 0 (length (knowledge ai'))))).
Proof. reflexivity. Qed.

Lemma elem_of_knowledge_mark_mine ai c s :
  s ∈ knowledge (mark_mine ai c)
  ↔ ∃ s0, s = Sentence.mark_mine s0 c ∧ s0 ∈ knowledge ai.
Proof. apply list_elem_of_fmap. Qed.

Lemma elem_of_knowledge_mark_safe ai c s :
  s ∈ knowledge (mark_safe ai c)
  ↔ ∃ s0, s = Sentence.mark_safe s0 c ∧ s0 ∈ knowledge ai.
Proof. apply list_elem_of_fmap. Qed.

Lemma enclosed_fold ai cell (l : list Cell) acc :
  foldl (enclosed_step ai cell) acc l
  = (acc.1 ++ filter (λ p, in_bounds (height ai) (width ai) p ∧ (p ≠ cell)
                           ∧ (p ∉ safes ai) ∧ (p ∉ mines ai)) l,
     acc.2 - Z.of_nat (length (filter (λ p, p ∈ mines ai) l))).
Proof.
  revert acc. induction l as [|p l IH]; intros [e n]; simpl.
  - apply (f_equal2 pair); [by rewrite app_nil_r | lia].
  - rewrite IH. unfold enclosed_step; simpl.
    rewrite !filter_cons. repeat case_decide; simpl;
      (apply (f_equal2 pair); [by rewrite <- ?app_assoc | lia]).
Qed.

Lemma get_enclosed_cells_eq ai cell count :
  get_enclosed_cells ai cell count
  = (filter (λ p, in_bounds (height ai) (width ai) p ∧ (p ≠ cell)
                  ∧ (p ∉ safes ai) ∧ (p ∉ mines ai)) (block cell),
     count - Z.of_nat (length (filter (λ p, p ∈ mines ai) (block cell)))).
Proof. unfold get_enclosed_cells. by rewrite enclosed_fold. Qed.

Lemma elem_of_new_sentence ai cell count c :
  c ∈ Sentence.cells (new_sentence ai cell count)
  ↔ (in_bounds (height ai) (width ai) c ∧ (c ≠ cell)
     ∧ (c ∉ safes ai) ∧ (c ∉ mines ai)) ∧ c ∈ block cell.
Proof.
  unfold new_sentence. rewrite get_enclosed_cells_eq. simpl.
  by rewrite elem_of_list_to_set, list_elem_of_filter.
Qed.

Lemma elem_of_knowledge_with_new_sentence ai cell count s :
  s ∈ knowledge (with_new_sentence ai cell count)
  ↔ (∃ s0, s = Sentence.mark_safe s0 cell ∧ s0 ∈ knowledge ai)
    ∨ s = new_sentence (record_move ai cell) cell count.
Proof.
  unfold with_new_sentence; simpl.
  rewrite elem_of_app, list_elem_of_singleton, list_elem_of_fmap. done.
Qed.

End ai_facts.

(** ** The fact sets only grow *)
Section growth.
Import MinesweeperAI.
Variables M S V : gset Cell.

Lemma grown_add_knowledge ai cell count :
  grown M S V ai → grown M S V (add_knowledge ai cell count).
Proof.
  intros HP. rewrite add_knowledge_eq. cbv zeta.
  apply (inference_preserves (grown M S V) (λ _, True) (λ _, True)); try done.
  - intros a c (?&?&?) _. repeat split; simpl; set_solver.
  - intros a c (?&?&?) _. repeat split; simpl; set_solver.
  - destruct HP as (?&?&?). repeat split; simpl; set_solver.
Qed.

Lemma grown_run ai probes : grown M S V ai → grown M S V (run ai probes).
Proof.
  revert ai. induction probes as [|p probes IH]; intros ai HP; simpl; [done|].
  by apply IH, grown_add_knowledge.
Qed.

End growth.

(** ** Held sentences mention unresolved cells only *)
Section unresolved_cells.
Import MinesweeperAI.

Lemma unresolved_mark_mine ai c : unresolved ai → unresolved (mark_mine ai c).
Proof.
  intros HP s (s0 & -> & Hs0)%elem_of_knowledge_mark_mine x.
  rewrite mark_mine_cells. intros Hx. simpl.
  destruct (HP s0 Hs0 x) as [??]; set_solver.
Qed.

Lemma unresolved_mark_safe ai c : unresolved ai → unresolved (mark_safe ai c).
Proof.
  intros HP s (s0 & -> & Hs0)%elem_of_knowledge_mark_safe x.
  rewrite mark_safe_cells. intros Hx. simpl.
  destruct (HP s0 Hs0 x) as [??]; set_solver.
Qed.

Lemma unresolved_with_new_sentence ai cell count :
  unresolved ai → unresolved (with_new_sentence ai cell count).
Proof.
  intros HP s [(s0 & -> & Hs0)| ->]%elem_of_knowledge_with_new_sentence x.
  - rewrite mark_safe_cells. intros Hx. simpl.
    destruct (HP s0 Hs0 x) as [??]; set_solver.
  - intros [(_ & _ & ? & ?) _]%elem_of_new_sentence. done.
Qed.

Lemma unresolved_add_knowledge ai cell count :
  unresolved ai → unresolved (add_knowledge ai cell count).
Proof.
  intros HP. rewrite add_knowledge_eq. cbv zeta.
  apply (inference_preserves unresolved (λ _, True) (λ _, True)); try done.
  - intros a c Ha _. by apply unresolved_mark_mine.
  - intros a c Ha _. by apply unresolved_mark_safe.
  - intros a l Ha Hl s Hs. apply (Ha s). by apply Hl.
  - by apply unresolved_with_new_sentence.
Qed.

End unresolved_cells.

(** ** Held sentences mention cells of the board only *)
Section grid.
Import MinesweeperAI.
Variables h w : Z.

Lemma within_grid_add_knowledge ai cell count :
  within_grid h w ai → within_grid h w (add_knowledge ai cell count).
Proof.
  intros HP. rewrite add_knowledge_eq. cbv zeta.
  apply (inference_preserves (within_grid h w) (λ _, True) (λ _, True));
    try done.
  - intros a c (?&?&Ha) _. split; [done|split; [done|]].
    intros s (s0 & -> & Hs0)%elem_of_knowledge_mark_mine x.
    rewrite mark_mine_cells. intros Hx. apply (Ha s0 Hs0). set_solver.
  - intros a c (?&?&Ha) _. split; [done|split; [done|]].
    intros s (s0 & -> & Hs0)%elem_of_knowledge_mark_safe x.
    rewrite mark_safe_cells. intros Hx. apply (Ha s0 Hs0). set_solver.
  - intros a l (?&?&Ha) Hl. split; [done|split; [done|]].
    intros s Hs. apply (Ha s). by apply Hl.
  - destruct HP as (Hh & Hw & Ha). split; [done|split; [done|]].
    intros s [(s0 & -> & Hs0)| ->]%elem_of_knowledge_with_new_sentence x.
    + rewrite mark_safe_cells. intros Hx. apply (Ha s0 Hs0). set_solver.
    + intros [(Hb & _) _]%elem_of_new_sentence. simpl in Hb.
      by rewrite Hh, Hw in Hb.
Qed.

End grid.

(** C7. Across any sequence of [add_knowledge] calls the sets [mines],
    [safes] and [moves_made] only grow: what they hold after some calls,
    they still hold after any further calls. *)
Theorem fact_sets_grow (ai : MinesweeperAI.t) (before later : list (Cell * Z)) :
  MinesweeperAI.mines (MinesweeperAI.run ai before)
    ⊆ MinesweeperAI.mines (MinesweeperAI.run ai (before ++ later))
  ∧ MinesweeperAI.safes (MinesweeperAI.run ai before)
    ⊆ MinesweeperAI.safes (MinesweeperAI.run ai (before ++ later))
  ∧ MinesweeperAI.moves_made (MinesweeperAI.run ai before)
    ⊆ MinesweeperAI.moves_made (MinesweeperAI.run ai (before ++ later)).
Proof.
  unfold MinesweeperAI.run. rewrite foldl_app.
  apply (grown_run _ _ _ (MinesweeperAI.run ai before) later).
  by repeat split.
Qed.

(** C9. After every [add_knowledge] call on a knowledge base that started
    empty, no cell of a held sentence is in [mines] or in [safes]. *)
Theorem sentences_hold_unresolved_cells
    (height width : Z) (probes : list (Cell * Z))
    (s : Sentence.t) (c : Cell) :
  let ai := MinesweeperAI.run (MinesweeperAI.init height width) probes in
  s ∈ MinesweeperAI.knowledge ai → c ∈ Sentence.cells s →
  (c ∉ MinesweeperAI.mines ai) ∧ (c ∉ MinesweeperAI.safes ai).
Proof.
  intros ai. assert (unresolved ai) as H; [|exact (λ Hs, H s Hs c)].
  subst ai. induction probes as [|p probes IH] using rev_ind.
  - intros s' Hs'. by apply elem_of_nil in Hs'.
  - unfold MinesweeperAI.run. rewrite foldl_app. simpl.
    by apply unresolved_add_knowledge.
Qed.

(** C10. After any sequence of [add_knowledge] calls on a fresh
    [height] by [width] knowledge base, every cell of a held sentence has
    [0 <= row < height] and [0 <= col < width]. *)
Theorem sentences_hold_grid_cells
    (height width : Z) (probes : list (Cell * Z))
    (s : Sentence.t) (c : Cell) :
  let ai := MinesweeperAI.run (MinesweeperAI.init height width) probes in
  s ∈ MinesweeperAI.knowledge ai → c ∈ Sentence.cells s →
  0 ≤ c.1 < height ∧ 0 ≤ c.2 < width.
Proof.
  intros ai.
  assert (within_grid height width ai) as (_ & _ & H); [|exact (λ Hs, H s Hs c)].
  subst ai. induction probes as [|p probes IH] using rev_ind.
  - split; [done|split; [done|]].
    intros s' Hs'. by apply elem_of_nil in Hs'.
  - unfold MinesweeperAI.run. rewrite foldl_app. simpl.
    by apply within_grid_add_knowledge.
Qed.

(** ** The sentence built by [add_knowledge] *)
Section added_sentence.
Import MinesweeperAI.

Lemma elem_of_block cell p : p ∈ block cell ↔ around cell p.
Proof.
  unfold block, range, around. rewrite list_elem_of_bind. split.
  - intros (r & (c & ->%list_elem_of_singleton & Hc)%list_elem_of_bind & Hr).
    apply elem_of_seqZ in Hr, Hc. simpl. lia.
  - intros [Hr Hc]. exists p.1. split.
    + apply list_elem_of_bind. exists p.2. split.
      * destruct p. by apply list_elem_of_singleton.
      * apply elem_of_seqZ. lia.
    + apply elem_of_seqZ. lia.
Qed.

Lemma NoDup_block cell : NoDup (block cell).
Proof.
  unfold block. apply NoDup_bind; [| |apply NoDup_seqZ].
  - intros r1 r2 p _ _
      (c1 & ->%list_elem_of_singleton & _)%list_elem_of_bind
      (c2 & [=]%list_elem_of_singleton & _)%list_elem_of_bind.
    done.
  - intros r _. apply NoDup_bind; [| |apply NoDup_seqZ].
    + intros c1 c2 p _ _ ->%list_elem_of_singleton [=]%list_elem_of_singleton.
      done.
    + intros c _. apply NoDup_singleton.
Qed.

Lemma length_filter_block (X : gset Cell) cell :
  length (filter (λ p, p ∈ X) (block cell)) = size (filter (around cell) X).
Proof.
  rewrite <- (size_list_to_set (C:=gset Cell))
    by apply NoDup_filter, NoDup_block.
  f_equal. apply set_eq; intros p.
  rewrite elem_of_list_to_set, list_elem_of_filter, elem_of_filter,
    elem_of_block.
  tauto.
Qed.

Lemma new_sentence_count ai cell count :
  Sentence.count (new_sentence ai cell count)
  = count - Z.of_nat (size (filter (around cell) (mines ai))).
Proof.
  unfold new_sentence. rewrite get_enclosed_cells_eq. simpl.
  by rewrite length_filter_block.
Qed.

End added_sentence.

(** ** Soundness of the inferences for truthful counts *)
Section soundness.
Import MinesweeperAI.
Variable g : Minesweeper.t.
Implicit Types (X Y : gset Cell) (c cell p : Cell).

Lemma hazards_in_remove_safe X c :
  ¬ hazard g c → hazards_in g (X ∖ {[c]}) = hazards_in g X.
Proof.
  intros Hc. unfold hazards_in. do 2 f_equal.
  apply set_eq; intros p. rewrite !elem_of_filter. set_solver.
Qed.

Lemma hazards_in_remove_mine X c :
  hazard g c →
  hazards_in g (X ∖ {[c]})
  = hazards_in g X - (if decide (c ∈ X) then 1 else 0).
Proof.
  intros Hc. unfold hazards_in. case_decide as Hin.
  - assert (filter (hazard g) X = {[c]} ∪ filter (hazard g) (X ∖ {[c]})) as ->.
    { apply set_eq; intros p.
      rewrite elem_of_union, !elem_of_filter, elem_of_difference,
        elem_of_singleton.
      destruct (decide (p = c)) as [->|]; tauto. }
    rewrite size_union, size_singleton; [lia|].
    apply elem_of_disjoint; intros p ->%elem_of_singleton.
    rewrite elem_of_filter. set_solver.
  - replace (X ∖ {[c]}) with X by set_solver. lia.
Qed.

Lemma hazards_in_split X Y :
  Y ⊆ X → hazards_in g X = hazards_in g Y + hazards_in g (X ∖ Y).
Proof.
  intros HYX. unfold hazards_in.
  rewrite (union_difference_L Y X HYX) at 1.
  rewrite filter_union_L by apply _.
  rewrite size_union; [lia|].
  apply disjoint_filter. set_solver.
Qed.

Lemma hazards_in_none X c : hazards_in g X = 0 → c ∈ X → ¬ hazard g c.
Proof.
  unfold hazards_in. intros HX Hc Hh.
  assert (size (filter (hazard g) X) = 0%nat) as HX'%size_empty_inv by lia.
  assert (c ∈ filter (hazard g) X) by (by apply elem_of_filter).
  set_solver.
Qed.

Lemma hazards_in_all X c :
  hazards_in g X = Z.of_nat (size X) → c ∈ X → hazard g c.
Proof.
  unfold hazards_in. intros HX Hc.
  assert (filter (hazard g) X = X) as Heq.
  { apply set_subseteq_size_eq; [|lia].
    intros p. rewrite elem_of_filter. tauto. }
  rewrite <- Heq in Hc. by apply elem_of_filter in Hc as [? _].
Qed.

Lemma sound_mark_mine ai c : sound g ai → hazard g c → sound g (mark_mine ai c).
Proof.
  intros (Hh & Hw & Hk & Hm & Hs) Hc.
  split; [done|]. split; [done|]. split; [|split]; simpl.
  - intros s (s0 & -> & Hs0)%elem_of_knowledge_mark_mine.
    rewrite mark_mine_cells, mark_mine_count, hazards_in_remove_mine by done.
    by rewrite (Hk s0 Hs0).
  - intros p [->%elem_of_singleton|?]%elem_of_union; auto.
  - done.
Qed.

Lemma sound_mark_safe ai c :
  sound g ai → ¬ hazard g c → sound g (mark_safe ai c).
Proof.
  intros (Hh & Hw & Hk & Hm & Hs) Hc.
  split; [done|]. split; [done|]. split; [|split]; simpl.
  - intros s (s0 & -> & Hs0)%elem_of_knowledge_mark_safe.
    rewrite mark_safe_cells, mark_safe_count, hazards_in_remove_safe by done.
    by apply Hk.
  - done.
  - intros p [->%elem_of_singleton|?]%elem_of_union; auto.
Qed.

Lemma sound_inference k ai (l : list nat) :
  sound g ai →
  sound g (remove_sures (remove_duplicates (foldl (conclusion_step k) ai l))).
Proof.
  apply (inference_preserves (sound g) (hazard g) (λ c, ¬ hazard g c)).
  - apply sound_mark_mine.
  - apply sound_mark_safe.
  - intros a l' (Hh & Hw & Hk & Hm & Hs) Hl.
    split; [done|]. split; [done|]. split; [|done].
    intros s Hs'. by apply Hk, Hl.
  - intros a s1 s2 (_ & _ & Hk & _) H1 H2 Hsub Hcount c Hc.
    apply (hazards_in_none (Sentence.cells s1 ∖ Sentence.cells s2)); [|done].
    pose proof (hazards_in_split _ _ Hsub) as Hsplit.
    rewrite <- (Hk s1 H1), <- (Hk s2 H2) in Hsplit. lia.
  - intros a s1 s2 (_ & _ & Hk & _) H1 H2 Hsub Hcount c Hc.
    apply (hazards_in_all (Sentence.cells s1 ∖ Sentence.cells s2)); [|done].
    pose proof (hazards_in_split _ _ Hsub) as Hsplit.
    rewrite <- (Hk s1 H1), <- (Hk s2 H2) in Hsplit. lia.
  - intros a s (_ & _ & Hk & _) Hs Hsize c Hc.
    apply (hazards_in_all (Sentence.cells s)); [|done].
    by rewrite <- (Hk s Hs).
  - intros a s (_ & _ & Hk & _) Hs Hzero c Hc.
    apply (hazards_in_none (Sentence.cells s)); [|done].
    by rewrite <- (Hk s Hs).
Qed.

Lemma nearby_fold cell (l : list Cell) acc n :
  foldl (Minesweeper.nearby_step g cell) acc l = Some n →
  ∃ a, acc = Some a
       ∧ n = a + Z.of_nat (length (filter (λ p, p ≠ cell ∧ hazard g p) l)).
Proof.
  revert acc. induction l as [|p l IH]; intros acc; simpl.
  - intros ->. exists n. split; [done | lia].
  - intros (a' & Hstep & ->)%IH.
    destruct acc as [a|]; [|done]. exists a. split; [done|].
    rewrite filter_cons. unfold Minesweeper.nearby_step in Hstep.
    simpl in Hstep.
    destruct (decide (p = cell)) as [->|Hne].
    { injection Hstep as <-. rewrite decide_False by tauto. lia. }
    destruct (decide (in_bounds _ _ p)) as [Hb|Hb].
    + destruct (Minesweeper.is_mine g p) as [[]|] eqn:Hp; simplify_eq/=.
      * rewrite decide_True by done. simpl. lia.
      * rewrite decide_False by (intros [_ [_ ?]]; congruence). lia.
    + injection Hstep as <-.
      rewrite decide_False by (intros [_ [? _]]; done). lia.
Qed.

Lemma nearby_mines_count cell n :
  Minesweeper.nearby_mines g cell = Some n →
  n = Z.of_nat (length (filter (λ p, p ≠ cell ∧ hazard g p) (block cell))).
Proof.
  intros (a & [= <-] & ->)%nearby_fold. lia.
Qed.

Lemma length_filter_split {A : Type} (P Q R : A → Prop)
    `{!∀ x, Decision (P x), !∀ x, Decision (Q x), !∀ x, Decision (R x)}
    (l : list A) :
  (∀ x, x ∈ l → (P x ↔ Q x ∨ R x)) →
  (∀ x, x ∈ l → ¬ (Q x ∧ R x)) →
  length (filter P l) = (length (filter Q l) + length (filter R l))%nat.
Proof.
  induction l as [|x l IH]; intros Hiff Hdisj; [done|].
  rewrite !filter_cons.
  assert (length (filter P l)
          = (length (filter Q l) + length (filter R l))%nat) as IH'.
  { apply IH; intros y Hy; [apply Hiff | apply Hdisj]; by right. }
  pose proof (Hiff x ltac:(by left)). pose proof (Hdisj x ltac:(by left)).
  repeat case_decide; simpl; rewrite IH'; tauto || lia.
Qed.

Lemma hazards_in_list_to_set (F : Cell → Prop) `{!∀ p, Decision (F p)} cell :
  hazards_in g (list_to_set (filter F (block cell)))
  = Z.of_nat (length (filter (λ p, hazard g p ∧ F p) (block cell))).
Proof.
  unfold hazards_in. f_equal.
  rewrite <- (size_list_to_set (C:=gset Cell))
    by apply NoDup_filter, NoDup_block.
  f_equal. apply set_eq; intros p.
  rewrite elem_of_filter, !elem_of_list_to_set, !list_elem_of_filter. tauto.
Qed.

Lemma sound_with_new_sentence ai cell count :
  sound g ai → truthful g (cell, count) →
  sound g (with_new_sentence ai cell count).
Proof.
  intros (Hh & Hw & Hk & Hm & Hs) [Hsafe Hcount]; simpl in *.
  assert (¬ hazard g cell) as Hcell by (intros [_ ?]; congruence).
  split; [done|]. split; [done|]. split; [|split].
  - intros s [(s0 & -> & Hs0)| ->]%elem_of_knowledge_with_new_sentence.
    + rewrite mark_safe_cells, mark_safe_count, hazards_in_remove_safe by done.
      by apply Hk.
    + unfold new_sentence. rewrite get_enclosed_cells_eq. simpl.
      rewrite hazards_in_list_to_set.
      apply nearby_mines_count in Hcount as ->.
      rewrite (length_filter_split _ (λ p, p ∈ mines ai)
                 (λ p, hazard g p
                       ∧ in_bounds (height ai) (width ai) p ∧ (p ≠ cell)
                         ∧ (p ∉ {[cell]} ∪ safes ai) ∧ (p ∉ mines ai))).
      * lia.
      * intros p _. rewrite Hh, Hw. split.
        -- intros [Hne Hp]. destruct (decide (p ∈ mines ai)); [by left|].
           right. split; [done|]. split; [apply Hp|]. split; [done|].
           split; [|done].
           intros [?%elem_of_singleton|?]%elem_of_union; [done|].
           by apply (Hs p).
        -- intros [Hp|(Hp & _ & Hne & _)]; [|done].
           split; [|by apply Hm]. intros ->. by apply Hcell, Hm.
      * intros p _ [? (_ & _ & _ & _ & ?)]. done.
  - done.
  - simpl. intros p [->%elem_of_singleton|?]%elem_of_union; auto.
Qed.

Lemma sound_add_knowledge ai cell count :
  sound g ai → truthful g (cell, count) →
  sound g (add_knowledge ai cell count).
Proof.
  intros Hai Hprobe. rewrite add_knowledge_eq. cbv zeta.
  by apply sound_inference, sound_with_new_sentence.
Qed.

Lemma sound_run ai probes :
  sound g ai → Forall (truthful g) probes → sound g (run ai probes).
Proof.
  intros Hai Hprobes. revert ai Hai.
  induction Hprobes as [|[cell count] probes Hp _ IH]; intros ai Hai; [done|].
  simpl. by apply IH, sound_add_knowledge.
Qed.

Lemma sound_init :
  sound g (init (Minesweeper.height g) (Minesweeper.width g)).
Proof.
  split; [done|]. split; [done|]. split; [|split]; simpl.
  - intros s Hs. by apply elem_of_nil in Hs.
  - intros c Hc. by apply not_elem_of_empty in Hc.
  - intros c Hc. by apply not_elem_of_empty in Hc.
Qed.

End soundness.

(** C3. Start from a fresh knowledge base for the board [g] and make any
    sequence of [add_knowledge] calls that report [g] truthfully: each call
    is for a safe cell of [g], with the count [g.nearby_mines] gives for it.
    After every call of the sequence, [mines] and [safes] share no cell. *)
Theorem mines_safes_disjoint
    (g : Minesweeper.t) (probes : list (Cell * Z)) (n : nat) :
  Forall (truthful g) probes →
  let ai := MinesweeperAI.run
              (MinesweeperAI.init (Minesweeper.height g) (Minesweeper.width g))
              (take n probes) in
  MinesweeperAI.mines ai ## MinesweeperAI.safes ai.
Proof.
  intros Hprobes ai.
  assert (sound g ai) as (_ & _ & _ & Hm & Hs).
  { apply sound_run; [apply sound_init | by apply Forall_take]. }
  apply elem_of_disjoint. intros c Hcm Hcs. by apply (Hs c), Hm.
Qed.

(** ** Evaluating the knowledge base on small boards *)

Lemma row_probes_truthful : Forall (truthful row_board) row_probes.
Proof. repeat constructor. Qed.

(** A board of one row and three cells: the call for [(0, 0)] with count 0
    builds the sentence [{(0, 1)} = 0], and [(0, 1)] is marked safe. *)
Example one_row_zero_count :
  let ai := MinesweeperAI.add_knowledge (MinesweeperAI.init 1 3) (0, 0) 0 in
  Sentence.cells (MinesweeperAI.new_sentence
                    (MinesweeperAI.record_move (MinesweeperAI.init 1 3) (0, 0))
                    (0, 0) 0) = {[(0, 1)]}
  ∧ MinesweeperAI.safes ai = {[(0, 0); (0, 1)]}
  ∧ MinesweeperAI.mines ai = ∅
  ∧ MinesweeperAI.knowledge ai = [].
Proof. vm_compute. repeat split. Qed.

(** Self-resolution: on the one-row board, the call for [(0, 1)] leaves
    [{(0, 0), (0, 2)} = 1]; the call for [(0, 2)] with count 0 shrinks it to
    [{(0, 0)} = 1] and adds [{(0, 3)} = 0], and [remove_sures] resolves
    both. *)
Example one_row_mine_found :
  let ai := MinesweeperAI.run (MinesweeperAI.init 1 5) [((0, 1), 1); ((0, 2), 0)] in
  MinesweeperAI.mines ai = {[(0, 0)]}
  ∧ MinesweeperAI.safes ai = {[(0, 1); (0, 2); (0, 3)]}
  ∧ MinesweeperAI.knowledge ai = [].
Proof. vm_compute. repeat split. Qed.

(** The subset rule: on a two by three board, the call for [(0, 0)] with
    count 1 and then the call for [(0, 1)] with count 1 give the sentences
    [{(1, 0), (1, 1)} = 1] and [{(0, 2), (1, 0), (1, 1), (1, 2)} = 1]; the
    cells of the difference are marked safe and the two sentences, now
    equal, are held once. *)
Example two_rows_subset_rule :
  let ai := MinesweeperAI.run (MinesweeperAI.init 2 3) [((0, 0), 1); ((0, 1), 1)] in
  MinesweeperAI.mines ai = ∅
  ∧ MinesweeperAI.safes ai = {[(0, 0); (0, 1); (0, 2); (1, 2)]}
  ∧ MinesweeperAI.knowledge ai = [Sentence.Build {[(1, 0); (1, 1)]} 1].
Proof. vm_compute. repeat split. Qed.

(** [add_knowledge] is meant for safe cells.  On a one by two board with a
    mine at [(0, 1)], the call for [(0, 0)] finds the mine; a further call
    for [(0, 1)] itself, with the count the board gives for it, makes that
    cell both a known mine and a known safe cell. *)
Example call_for_a_mine_cell :
  let g := Minesweeper.Build 1 2 [[false; true]] in
  let ai := MinesweeperAI.run (MinesweeperAI.init 1 2) [((0, 0), 1); ((0, 1), 0)] in
  Minesweeper.is_mine g (0, 1) = Some true
  ∧ Minesweeper.nearby_mines g (0, 0) = Some 1
  ∧ Minesweeper.nearby_mines g (0, 1) = Some 0
  ∧ (0, 1) ∈ MinesweeperAI.mines ai
  ∧ (0, 1) ∈ MinesweeperAI.safes ai.
Proof. vm_compute. repeat split. Qed.

(** [make_safe_move] on a fresh knowledge base, and once a safe cell that
    has not been played is known. *)
Example no_safe_move_then_one :
  (MinesweeperAI.make_safe_move pop_first (MinesweeperAI.init 1 3)).1 = None
  ∧ (MinesweeperAI.make_safe_move pop_first
       (MinesweeperAI.add_knowledge (MinesweeperAI.init 1 3) (0, 0) 0)).1
    = Some (0, 1).
Proof. vm_compute. repeat split. Qed.

Lemma pop_first_elem (X : gset Cell) : X ≠ ∅ → pop_first X ∈ X.
Proof.
  intros HX. unfold pop_first.
  destruct (elements X) as [|c l] eqn:Hel.
  - by apply elements_empty_inv, leibniz_equiv in Hel.
  - simpl. apply elem_of_elements. rewrite Hel. by left.
Qed.

(** C1, on the one-row board.  After the truthful calls for [(0, 1)] and
    [(0, 3)] the knowledge base holds the sentence [{(0, 0)} = 1] while
    [mines] is empty; running [remove_sures] once more marks [(0, 0)] as a
    mine and drops the sentence.  [add_knowledge] makes one pass and does not
    reach a state that its own inference steps leave unchanged. *)
Theorem add_knowledge_not_fixpoint :
  let ai := MinesweeperAI.run (MinesweeperAI.init 1 5) row_probes in
  Forall (truthful row_board) row_probes
  ∧ MinesweeperAI.knowledge ai = [Sentence.Build {[(0, 0)]} 1]
  ∧ MinesweeperAI.mines ai = ∅
  ∧ MinesweeperAI.mines (MinesweeperAI.remove_sures ai) = {[(0, 0)]}
  ∧ MinesweeperAI.knowledge (MinesweeperAI.remove_sures ai) = [].
Proof.
  split; [apply row_probes_truthful|].
  vm_compute. repeat split.
Qed.

(** C2, on the one-row board and on the one-cell board.  After the truthful
    calls for [(0, 1)] and [(0, 3)] the sentence [{(0, 0)} = 1] is still
    held: [known_mines] returns its cells, and [(0, 0)] is not in [mines].
    On a board of one cell, the call for [(0, 0)] with count 0 leaves the
    sentence without cells in the knowledge base, for which both queries
    return the empty set. *)
Theorem resolvable_sentence_remains :
  (let ai := MinesweeperAI.run (MinesweeperAI.init 1 5) row_probes in
   let s := Sentence.Build {[(0, 0)]} 1 in
   s ∈ MinesweeperAI.knowledge ai
   ∧ Sentence.known_mines s = Some {[(0, 0)]}
   ∧ (0, 0) ∉ MinesweeperAI.mines ai)
  ∧ (let ai := MinesweeperAI.run (MinesweeperAI.init 1 1) [((0, 0), 0)] in
     let s := Sentence.Build ∅ 0 in
     MinesweeperAI.knowledge ai = [s]
     ∧ Sentence.known_mines s = Some ∅
     ∧ Sentence.known_safes s = Some ∅).
Proof.
  split.
  - split; [|split].
    + vm_compute. by left.
    + by vm_compute.
    + vm_compute. discriminate.
  - vm_compute. repeat split.
Qed.

(** C8. [make_safe_move] returns a cell of [safes - moves_made] when there
    is one and [None] exactly when there is none, whichever element
    [set.pop()] takes from a non-empty set; the knowledge base is the same
    after the call as before it. *)
Theorem make_safe_move_spec
    (pop : gset Cell → Cell) (ai : MinesweeperAI.t) :
  (∀ X, X ≠ ∅ → pop X ∈ X) →
  let r := MinesweeperAI.make_safe_move pop ai in
  (MinesweeperAI.safes ai ∖ MinesweeperAI.moves_made ai ≠ ∅ →
   ∃ c, r.1 = Some c ∧ c ∈ MinesweeperAI.safes ai ∖ MinesweeperAI.moves_made ai)
  ∧ (r.1 = None ↔ MinesweeperAI.safes ai ∖ MinesweeperAI.moves_made ai = ∅)
  ∧ r.2 = ai.
Proof.
  intros Hpop. unfold MinesweeperAI.make_safe_move.
  case_decide as Hempty; simpl.
  - split; [done|]. by split.
  - split; [|by split].
    intros _. eexists. split; [done|]. by apply Hpop.
Qed.

Lemma make_safe_move_spec_witness :
  let ai := MinesweeperAI.run (MinesweeperAI.init 1 5) row_probes in
  let r := MinesweeperAI.make_safe_move pop_first ai in
  (MinesweeperAI.safes ai ∖ MinesweeperAI.moves_made ai ≠ ∅ →
   ∃ c, r.1 = Some c ∧ c ∈ MinesweeperAI.safes ai ∖ MinesweeperAI.moves_made ai)
  ∧ (r.1 = None ↔ MinesweeperAI.safes ai ∖ MinesweeperAI.moves_made ai = ∅)
  ∧ r.2 = ai.
Proof. exact (make_safe_move_spec pop_first _ pop_first_elem). Defined.

Lemma mines_safes_disjoint_witness :
  Forall (truthful row_board) row_probes
  ∧ (let ai := MinesweeperAI.run (MinesweeperAI.init 1 5) (take 2 row_probes) in
     MinesweeperAI.mines ai ## MinesweeperAI.safes ai).
Proof.
  split; [apply row_probes_truthful|].
  exact (mines_safes_disjoint row_board row_probes 2 row_probes_truthful).
Defined.

Lemma sentences_hold_unresolved_cells_witness :
  let ai := MinesweeperAI.run (MinesweeperAI.init 1 5) [((0, 1), 1)] in
  ((0, 2) ∉ MinesweeperAI.mines ai) ∧ ((0, 2) ∉ MinesweeperAI.safes ai).
Proof.
  apply (sentences_hold_unresolved_cells 1 5 [((0, 1), 1)]
           (Sentence.Build {[(0, 0); (0, 2)]} 1) (0, 2)).
  - vm_compute. by left.
  - by vm_compute.
Defined.

Lemma sentences_hold_grid_cells_witness : 0 ≤ 0 < 1 ∧ 0 ≤ 2 < 5.
Proof.
  apply (sentences_hold_grid_cells 1 5 [((0, 1), 1)]
           (Sentence.Build {[(0, 0); (0, 2)]} 1) (0, 2)).
  - vm_compute. by left.
  - by vm_compute.
Defined.

Lemma sentence_mark_mine_spec_witness :
  let s := Sentence.Build {[(0, 0); (0, 2)]} 1 in
  ((0, 2) ∉ Sentence.cells (Sentence.mark_mine s (0, 2)))
  ∧ Sentence.count (Sentence.mark_mine s (0, 2)) = 0
  ∧ Sentence.mark_mine s (1, 1) = s.
Proof.
  intros s.
  destruct (sentence_mark_mine_spec s (0, 2)) as [Hin _].
  destruct (sentence_mark_mine_spec s (1, 1)) as [_ Hout].
  destruct Hin as (H1 & H2 & _); [by vm_compute|].
  split; [exact H1|]. split; [exact H2|].
  apply Hout. vm_compute. discriminate.
Defined.

(** * Further properties of [Sentence] and of the marks *)

(** X1. [Sentence.mark_safe]: the cell is removed, the count is left as it
    is and every other cell stays; a sentence that does not hold the cell is
    unchanged. *)
Theorem sentence_mark_safe_spec (s : Sentence.t) (c : Cell) :
  (c ∉ Sentence.cells (Sentence.mark_safe s c))
  ∧ Sentence.count (Sentence.mark_safe s c) = Sentence.count s
  ∧ (∀ x, x ≠ c →
       (x ∈ Sentence.cells (Sentence.mark_safe s c) ↔ x ∈ Sentence.cells s))
  ∧ ((c ∉ Sentence.cells s) → Sentence.mark_safe s c = s).
Proof.
  rewrite mark_safe_cells. split; [set_solver|]. split; [done|].
  split; [set_solver|].
  intros Hc. apply sentence_eq; [|done].
  rewrite mark_safe_cells. set_solver.
Qed.

Lemma sentence_mark_mine_comm (s : Sentence.t) (a b : Cell) :
  Sentence.mark_mine (Sentence.mark_mine s a) b
  = Sentence.mark_mine (Sentence.mark_mine s b) a.
Proof.
  apply sentence_eq.
  - rewrite !mark_mine_cells. set_solver.
  - rewrite !mark_mine_count, !mark_mine_cells.
    destruct (decide (a = b)) as [->|Hab]; [done|].
    repeat case_decide; set_solver by lia.
Qed.

Lemma sentence_mark_safe_comm (s : Sentence.t) (a b : Cell) :
  Sentence.mark_safe (Sentence.mark_safe s a) b
  = Sentence.mark_safe (Sentence.mark_safe s b) a.
Proof.
  apply sentence_eq; [|done]. rewrite !mark_safe_cells. set_solver.
Qed.

(** X2. Marking the same cell twice is the same as marking it once: the
    second [mark_mine] finds the cell gone and does not lower the count
    again. *)
Theorem sentence_marks_idempotent (s : Sentence.t) (c : Cell) :
  Sentence.mark_mine (Sentence.mark_mine s c) c = Sentence.mark_mine s c
  ∧ Sentence.mark_safe (Sentence.mark_safe s c) c = Sentence.mark_safe s c.
Proof.
  split; apply sentence_eq.
  - rewrite !mark_mine_cells. set_solver.
  - rewrite (mark_mine_count (Sentence.mark_mine s c)), mark_mine_cells.
    case_decide; [set_solver | lia].
  - rewrite !mark_safe_cells. set_solver.
  - done.
Qed.

(** X3. [MinesweeperAI.mark_mine]: the cell joins [mines], the other fields
    are as before, and every held sentence is updated where it stands: the
    cell is taken out of it, and its count is lowered by one exactly when it
    held the cell. *)
Theorem ai_mark_mine_spec (ai : MinesweeperAI.t) (c : Cell) :
  let ai' := MinesweeperAI.mark_mine ai c in
  MinesweeperAI.mines ai' = {[c]} ∪ MinesweeperAI.mines ai
  ∧ MinesweeperAI.safes ai' = MinesweeperAI.safes ai
  ∧ MinesweeperAI.moves_made ai' = MinesweeperAI.moves_made ai
  ∧ length (MinesweeperAI.knowledge ai') = length (MinesweeperAI.knowledge ai)
  ∧ (∀ s', s' ∈ MinesweeperAI.knowledge ai' → c ∉ Sentence.cells s')
  ∧ (∀ i s, MinesweeperAI.knowledge ai !! i = Some s →
       ∃ s', MinesweeperAI.knowledge ai' !! i = Some s'
             ∧ Sentence.cells s' = Sentence.cells s ∖ {[c]}
             ∧ Sentence.count s'
               = Sentence.count s
                 - (if decide (c ∈ Sentence.cells s) then 1 else 0)).
Proof.
  simpl. split; [done|]. split; [done|]. split; [done|].
  split; [by rewrite length_fmap|]. split.
  - intros s' (s0 & -> & _)%list_elem_of_fmap.
    rewrite mark_mine_cells. set_solver.
  - intros i s Hs. exists (Sentence.mark_mine s c).
    rewrite list_lookup_fmap, Hs. split; [done|].
    by rewrite mark_mine_cells, mark_mine_count.
Qed.

(** X4. [MinesweeperAI.mark_safe]: the cell joins [safes], the other fields
    are as before, and every held sentence loses the cell and keeps its
    count. *)
Theorem ai_mark_safe_spec (ai : MinesweeperAI.t) (c : Cell) :
  let ai' := MinesweeperAI.mark_safe ai c in
  MinesweeperAI.safes ai' = {[c]} ∪ MinesweeperAI.safes ai
  ∧ MinesweeperAI.mines ai' = MinesweeperAI.mines ai
  ∧ MinesweeperAI.moves_made ai' = MinesweeperAI.moves_made ai
  ∧ length (MinesweeperAI.knowledge ai') = length (MinesweeperAI.knowledge ai)
  ∧ (∀ s', s' ∈ MinesweeperAI.knowledge ai' → c ∉ Sentence.cells s')
  ∧ (∀ i s, MinesweeperAI.knowledge ai !! i = Some s →
       ∃ s', MinesweeperAI.knowledge ai' !! i = Some s'
             ∧ Sentence.cells s' = Sentence.cells s ∖ {[c]}
             ∧ Sentence.count s' = Sentence.count s).
Proof.
  simpl. split; [done|]. split; [done|]. split; [done|].
  split; [by rewrite length_fmap|]. split.
  - intros s' (s0 & -> & _)%list_elem_of_fmap.
    rewrite mark_safe_cells. set_solver.
  - intros i s Hs. exists (Sentence.mark_safe s c).
    rewrite list_lookup_fmap, Hs. split; [done|].
    by rewrite mark_safe_cells.
Qed.

Lemma ai_mark_mine_comm (ai : MinesweeperAI.t) (a b : Cell) :
  MinesweeperAI.mark_mine (MinesweeperAI.mark_mine ai a) b
  = MinesweeperAI.mark_mine (MinesweeperAI.mark_mine ai b) a.
Proof.
  unfold MinesweeperAI.mark_mine; simpl. f_equal.
  - set_solver.
  - rewrite <- !list_fmap_compose. apply list_fmap_ext.
    intros i s _. apply sentence_mark_mine_comm.
Qed.

Lemma ai_mark_safe_comm (ai : MinesweeperAI.t) (a b : Cell) :
  MinesweeperAI.mark_safe (MinesweeperAI.mark_safe ai a) b
  = MinesweeperAI.mark_safe (MinesweeperAI.mark_safe ai b) a.
Proof.
  unfold MinesweeperAI.mark_safe; simpl. f_equal.
  - set_solver.
  - rewrite <- !list_fmap_compose. apply list_fmap_ext.
    intros i s _. apply sentence_mark_safe_comm.
Qed.

Lemma foldl_comm_permutation {A B : Type} (f : A → B → A) (l1 l2 : list B) :
  (∀ a x y, f (f a x) y = f (f a y) x) →
  l1 ≡ₚ l2 → ∀ a, foldl f a l1 = foldl f a l2.
Proof.
  intros Hcomm. induction 1 as [|x l1 l2 _ IH|x y l|l1 l2 l3 _ IH1 _ IH2];
    intros a; simpl.
  - done.
  - apply IH.
  - by rewrite Hcomm.
  - by rewrite IH1.
Qed.

(** X5. The loops [for c in X: self.mark_mine(c)] and
    [for c in X: self.mark_safe(c)] reach the same state in whatever order
    the cells are visited: the result does not depend on the iteration order
    of the Python set. *)
Theorem marks_order_irrelevant (ai : MinesweeperAI.t) (l1 l2 : list Cell) :
  l1 ≡ₚ l2 →
  foldl MinesweeperAI.mark_mine ai l1 = foldl MinesweeperAI.mark_mine ai l2
  ∧ foldl MinesweeperAI.mark_safe ai l1 = foldl MinesweeperAI.mark_safe ai l2.
Proof.
  intros Hperm. split.
  - apply foldl_comm_permutation; [|done].
    intros a x y. apply ai_mark_mine_comm.
  - apply foldl_comm_permutation; [|done].
    intros a x y. apply ai_mark_safe_comm.
Qed.

Lemma marks_order_irrelevant_witness :
  let ai := MinesweeperAI.run (MinesweeperAI.init 2 3) [((0, 0), 1)] in
  foldl MinesweeperAI.mark_mine ai [(1, 0); (0, 1)]
  = foldl MinesweeperAI.mark_mine ai [(0, 1); (1, 0)]
  ∧ foldl MinesweeperAI.mark_safe ai [(1, 0); (0, 1)]
    = foldl MinesweeperAI.mark_safe ai [(0, 1); (1, 0)].
Proof.
  intros ai. apply (marks_order_irrelevant ai [(1, 0); (0, 1)] [(0, 1); (1, 0)]).
  apply perm_swap.
Defined.

(** * Further properties of [remove_duplicates] and [remove_sures] *)

Lemma unique_fold_sublist (l acc : list Sentence.t) :
  ∃ r, foldl MinesweeperAI.unique_step acc l = acc ++ r ∧ r `sublist_of` l.
Proof.
  revert acc. induction l as [|x l IH]; intros acc; simpl.
  - exists []. by rewrite app_nil_r.
  - destruct (IH (MinesweeperAI.unique_step acc x)) as (r & -> & Hr).
    unfold MinesweeperAI.unique_step. case_decide.
    + exists (x :: r). rewrite <- app_assoc. split; [done|].
      by apply sublist_skip.
    + exists r. split; [done|]. by apply sublist_cons.
Qed.

Lemma unique_fold_NoDup (l acc : list Sentence.t) :
  NoDup acc → NoDup (foldl MinesweeperAI.unique_step acc l).
Proof.
  revert acc. induction l as [|x l IH]; intros acc Hacc; simpl; [done|].
  apply IH. unfold MinesweeperAI.unique_step. case_decide; [|done].
  apply NoDup_app. split; [done|]. split; [|apply NoDup_singleton].
  intros y Hy ->%list_elem_of_singleton. done.
Qed.

Lemma unique_fold_elem (l acc : list Sentence.t) s :
  s ∈ foldl MinesweeperAI.unique_step acc l ↔ s ∈ acc ∨ s ∈ l.
Proof.
  split; [apply unique_step_elem|].
  revert acc. induction l as [|x l IH]; intros acc; simpl.
  - intros [?|?%elem_of_nil]; done.
  - intros Hs. apply IH. unfold MinesweeperAI.unique_step.
    destruct Hs as [Hs|[->|Hs]%elem_of_cons]; case_decide as Hx;
      rewrite ?elem_of_app, ?list_elem_of_singleton; auto.
Qed.

Lemma unique_fold_id (l acc : list Sentence.t) :
  NoDup (acc ++ l) → foldl MinesweeperAI.unique_step acc l = acc ++ l.
Proof.
  revert acc. induction l as [|x l IH]; intros acc Hnd; simpl.
  - by rewrite app_nil_r.
  - assert (x ∉ acc) as Hx.
    { apply NoDup_app in Hnd as (_ & Hnd & _). intros Hin.
      apply (Hnd x Hin). by left. }
    unfold MinesweeperAI.unique_step. rewrite decide_True by done.
    rewrite IH; rewrite <- app_assoc; done.
Qed.

Lemma set_knowledge_same (ai : MinesweeperAI.t) :
  MinesweeperAI.set_knowledge ai (MinesweeperAI.knowledge ai) = ai.
Proof. by destruct ai. Qed.

Lemma unique_fold_order (l : list Sentence.t) (i j : nat) s1 s2 :
  foldl MinesweeperAI.unique_step [] l !! i = Some s1 →
  foldl MinesweeperAI.unique_step [] l !! j = Some s2 →
  (i < j)%nat →
  ∃ i', l !! i' = Some s1 ∧ ∀ j', l !! j' = Some s2 → (i' < j')%nat.
Proof.
  revert i j s1 s2.
  induction l as [|x l IH] using rev_ind; intros i j s1 s2 Hi Hj Hij; [done|].
  rewrite foldl_app in Hi, Hj. simpl in Hi, Hj.
  assert (∀ i', l !! i' = Some s1 →
                (∀ j', l !! j' = Some s2 → (i' < j')%nat) →
                ∃ i0, (l ++ [x]) !! i0 = Some s1
                      ∧ ∀ j', (l ++ [x]) !! j' = Some s2 → (i0 < j')%nat)
    as Hextend.
  { intros i' Hi' Hbefore. exists i'. split; [by apply lookup_app_l_Some|].
    intros j' [[_ Hj']|[-> _]]%lookup_snoc_Some; [by apply Hbefore|].
    by apply lookup_lt_Some in Hi'. }
  assert (∀ s, s ∈ foldl MinesweeperAI.unique_step [] l ↔ s ∈ l) as Hmem.
  { intros s. rewrite unique_fold_elem. split; [|by right].
    intros [?%elem_of_nil|?]; done. }
  set (r := foldl MinesweeperAI.unique_step [] l) in *.
  unfold MinesweeperAI.unique_step in Hi, Hj.
  destruct (decide (x ∉ r)) as [Hx|Hx].
  - apply lookup_snoc_Some in Hj as [[Hjlt Hj]|[-> <-]].
    + rewrite lookup_app_l in Hi by lia.
      destruct (IH i j s1 s2 Hi Hj Hij) as (i' & Hi' & Hbefore). eauto.
    + rewrite lookup_app_l in Hi by lia.
      assert (s1 ∈ l) as [i' Hi']%list_elem_of_lookup
        by (by apply Hmem; eapply list_elem_of_lookup_2).
      exists i'. split; [by apply lookup_app_l_Some|].
      intros j' [[_ Hj']|[-> _]]%lookup_snoc_Some.
      * exfalso. apply Hx, Hmem. by eapply list_elem_of_lookup_2.
      * by apply lookup_lt_Some in Hi'.
  - destruct (IH i j s1 s2 Hi Hj Hij) as (i' & Hi' & Hbefore). eauto.
Qed.

(** X6. [remove_duplicates] keeps one copy of every held sentence, in the
    order of first occurrence, and nothing else: the result has no two equal
    sentences and the same sentences as before; of two sentences of the
    result, the earlier one occurs in the old list before every occurrence of
    the later one; [mines], [safes] and [moves_made] are untouched, and a
    second run changes nothing. *)
Theorem remove_duplicates_spec (ai : MinesweeperAI.t) :
  let ai' := MinesweeperAI.remove_duplicates ai in
  NoDup (MinesweeperAI.knowledge ai')
  ∧ (∀ s, s ∈ MinesweeperAI.knowledge ai' ↔ s ∈ MinesweeperAI.knowledge ai)
  ∧ MinesweeperAI.knowledge ai' `sublist_of` MinesweeperAI.knowledge ai
  ∧ (∀ i j s1 s2,
       MinesweeperAI.knowledge ai' !! i = Some s1 →
       MinesweeperAI.knowledge ai' !! j = Some s2 →
       (i < j)%nat →
       ∃ i', MinesweeperAI.knowledge ai !! i' = Some s1
             ∧ ∀ j', MinesweeperAI.knowledge ai !! j' = Some s2 → (i' < j')%nat)
  ∧ MinesweeperAI.mines ai' = MinesweeperAI.mines ai
  ∧ MinesweeperAI.safes ai' = MinesweeperAI.safes ai
  ∧ MinesweeperAI.moves_made ai' = MinesweeperAI.moves_made ai
  ∧ MinesweeperAI.remove_duplicates ai' = ai'.
Proof.
  simpl.
  assert (NoDup (foldl MinesweeperAI.unique_step [] (MinesweeperAI.knowledge ai)))
    as Hnd by apply unique_fold_NoDup, NoDup_nil_2.
  split; [done|]. split; [|split; [|split]].
  - intros s. rewrite unique_fold_elem. split; [|by right].
    intros [?%elem_of_nil|?]; done.
  - destruct (unique_fold_sublist (MinesweeperAI.knowledge ai) [])
      as (r & -> & Hr). done.
  - apply unique_fold_order.
  - do 3 (split; [done|]).
    unfold MinesweeperAI.remove_duplicates at 1; simpl.
    rewrite unique_fold_id by done. simpl.
    apply (set_knowledge_same (MinesweeperAI.remove_duplicates ai)).
Qed.

(** Three held sentences, the first and the last equal: the copy kept is
    the first one. *)
Example remove_duplicates_keeps_first :
  let a := Sentence.Build {[(0, 0); (0, 1)]} 1 in
  let b := Sentence.Build {[(1, 0)]} 0 in
  MinesweeperAI.knowledge
    (MinesweeperAI.remove_duplicates (MinesweeperAI.Build 2 2 ∅ ∅ ∅ [a; b; a]))
  = [a; b].
Proof. vm_compute. reflexivity. Qed.

(** X7. A knowledge base in which no two held sentences are equal is left
    exactly as it is by [remove_duplicates]. *)
Theorem remove_duplicates_NoDup_id (ai : MinesweeperAI.t) :
  NoDup (MinesweeperAI.knowledge ai) → MinesweeperAI.remove_duplicates ai = ai.
Proof.
  intros Hnd. unfold MinesweeperAI.remove_duplicates.
  rewrite unique_fold_id by done. apply set_knowledge_same.
Qed.

Lemma remove_duplicates_NoDup_id_witness :
  let ai := MinesweeperAI.run (MinesweeperAI.init 3 3)
              [((0, 0), 1); ((2, 2), 1)] in
  MinesweeperAI.knowledge ai
  = [Sentence.Build {[(0, 1); (1, 0); (1, 1)]} 1;
     Sentence.Build {[(1, 1); (1, 2); (2, 1)]} 1]
  ∧ MinesweeperAI.remove_duplicates ai = ai.
Proof.
  intros ai. split; [by vm_compute|].
  apply (remove_duplicates_NoDup_id ai).
  vm_compute. apply NoDup_cons. split; [|apply NoDup_singleton].
  intros Heq%list_elem_of_singleton. discriminate Heq.
Defined.

Lemma omap_lookup_seq {A : Type} (l1 l2 : list A) :
  omap (λ i, (l1 ++ l2) !! i) (seq (length l1) (length l2)) = l2.
Proof.
  revert l1. induction l2 as [|x l2 IH]; intros l1; simpl; [done|].
  rewrite list_lookup_middle by done. f_equal.
  specialize (IH (l1 ++ [x])).
  rewrite <- app_assoc, length_app in IH. simpl in IH.
  by rewrite Nat.add_1_r in IH.
Qed.

Lemma remove_sures_loop_id (ai : MinesweeperAI.t) (acc : list nat) (k m : nat) :
  (∀ s, s ∈ MinesweeperAI.knowledge ai →
        truthy (Sentence.known_mines s) = false
        ∧ truthy (Sentence.known_safes s) = false) →
  (k + m ≤ length (MinesweeperAI.knowledge ai))%nat →
  foldl MinesweeperAI.remove_sures_step (ai, acc) (seq k m)
  = (ai, acc ++ seq k m).
Proof.
  intros Hno. revert acc k. induction m as [|m IH]; intros acc k Hk; simpl.
  - by rewrite app_nil_r.
  - destruct (lookup_lt_is_Some_2 (MinesweeperAI.knowledge ai) k) as [s Hs];
      [lia|].
    unfold MinesweeperAI.remove_sures_step at 2. simpl. rewrite Hs.
    destruct (Hno s) as [-> ->]; [by eapply list_elem_of_lookup_2|].
    rewrite IH by lia. by rewrite <- app_assoc.
Qed.

(** X8. When no held sentence with at least one cell has its count equal to
    the number of its cells or equal to zero, [remove_sures] changes nothing:
    no cell is marked and every sentence is kept, in place. *)
Theorem remove_sures_nothing_to_resolve (ai : MinesweeperAI.t) :
  (∀ s, s ∈ MinesweeperAI.knowledge ai → Sentence.cells s ≠ ∅ →
        Z.of_nat (size (Sentence.cells s)) ≠ Sentence.count s
        ∧ Sentence.count s ≠ 0) →
  MinesweeperAI.remove_sures ai = ai.
Proof.
  intros Hno. unfold MinesweeperAI.remove_sures.
  rewrite remove_sures_loop_id; simpl.
  - pose proof (omap_lookup_seq [] (MinesweeperAI.knowledge ai)) as Hall.
    simpl in Hall. rewrite Hall. apply set_knowledge_same.
  - intros s Hs. specialize (Hno s Hs).
    unfold Sentence.known_mines, Sentence.known_safes.
    split; case_decide; simpl; try done;
      apply bool_decide_eq_false; intros Hne; destruct (Hno Hne); done.
  - lia.
Qed.

Lemma remove_sures_nothing_to_resolve_witness :
  let ai := MinesweeperAI.run (MinesweeperAI.init 2 3) [((0, 0), 1)] in
  MinesweeperAI.remove_sures ai = ai.
Proof.
  intros ai. apply (remove_sures_nothing_to_resolve ai).
  intros s Hs _. vm_compute in Hs.
  apply list_elem_of_singleton in Hs as ->. vm_compute.
  split; discriminate.
Defined.

(** * Further properties of [add_knowledge] *)
Section add_knowledge_facts.
Import MinesweeperAI.

(** X9. [add_knowledge] records the move: [moves_made] gains exactly the
    cell of the call, the cell is in [safes] afterwards, and the dimensions
    of the board are kept. *)
Theorem add_knowledge_records_move (ai : MinesweeperAI.t) (cell : Cell) (count : Z) :
  let ai' := add_knowledge ai cell count in
  moves_made ai' = {[cell]} ∪ moves_made ai
  ∧ cell ∈ safes ai'
  ∧ height ai' = height ai
  ∧ width ai' = width ai.
Proof.
  rewrite add_knowledge_eq. cbv zeta.
  apply (inference_preserves
           (λ a, moves_made a = {[cell]} ∪ moves_made ai ∧ cell ∈ safes a
                 ∧ height a = height ai ∧ width a = width ai)
           (λ _, True) (λ _, True)); try done.
  - intros a c (?&?&?&?) _. simpl. set_solver.
  - simpl. set_solver.
Qed.

Lemma moves_in_safes_add_knowledge ai cell count :
  moves_made ai ⊆ safes ai →
  moves_made (add_knowledge ai cell count) ⊆ safes (add_knowledge ai cell count).
Proof.
  intros HP. rewrite add_knowledge_eq. cbv zeta.
  apply (inference_preserves (λ a, moves_made a ⊆ safes a)
           (λ _, True) (λ _, True)); try done.
  - intros a c Ha _. simpl. set_solver.
  - simpl. set_solver.
Qed.

Lemma on_board_add_knowledge h w ai cell count :
  on_board h w ai → on_board h w (add_knowledge ai cell count).
Proof.
  intros HP. rewrite add_knowledge_eq. cbv zeta.
  apply (inference_preserves (on_board h w) (in_bounds h w) (in_bounds h w)).
  - intros a c ((Hh & Hw & Hk) & Hm & Hs) Hc.
    split; [|split]; simpl; [|set_solver..].
    split; [done|]. split; [done|].
    intros s (s0 & -> & Hs0)%elem_of_knowledge_mark_mine x.
    rewrite mark_mine_cells. intros Hx. apply (Hk s0 Hs0). set_solver.
  - intros a c ((Hh & Hw & Hk) & Hm & Hs) Hc.
    split; [|split]; simpl; [|set_solver..].
    split; [done|]. split; [done|].
    intros s (s0 & -> & Hs0)%elem_of_knowledge_mark_safe x.
    rewrite mark_safe_cells. intros Hx. apply (Hk s0 Hs0). set_solver.
  - intros a l ((Hh & Hw & Hk) & Hm & Hs) Hl.
    split; [|by split]. split; [done|]. split; [done|].
    intros s Hs'. apply (Hk s). by apply Hl.
  - intros a s1 s2 ((_ & _ & Hk) & _) H1 _ _ _ c Hc.
    apply (Hk s1 H1). set_solver.
  - intros a s1 s2 ((_ & _ & Hk) & _) H1 _ _ _ c Hc.
    apply (Hk s1 H1). set_solver.
  - intros a s ((_ & _ & Hk) & _) Hs _ c Hc. by apply (Hk s Hs).
  - intros a s ((_ & _ & Hk) & _) Hs _ c Hc. by apply (Hk s Hs).
  - destruct HP as ((Hh & Hw & Hk) & Hm & Hs).
    split; [|split]; simpl; [|done|set_solver].
    split; [done|]. split; [done|].
    intros s [(s0 & -> & Hs0)| ->]%elem_of_knowledge_with_new_sentence x.
    + rewrite mark_safe_cells. intros Hx. apply (Hk s0 Hs0). set_solver.
    + intros [(Hb & _) _]%elem_of_new_sentence. simpl in Hb.
      by rewrite Hh, Hw in Hb.
Qed.

Lemma on_board_run h w probes : on_board h w (run (init h w) probes).
Proof.
  induction probes as [|p probes IH] using rev_ind.
  - split; [|split]; simpl; [|set_solver..].
    split; [done|]. split; [done|].
    intros s Hs. by apply elem_of_nil in Hs.
  - unfold run. rewrite foldl_app. simpl. by apply on_board_add_knowledge.
Qed.

End add_knowledge_facts.

(** X10. After any sequence of [add_knowledge] calls on a fresh knowledge
    base, every move made is a known safe cell. *)
Theorem moves_made_are_safe (height width : Z) (probes : list (Cell * Z)) :
  let ai := MinesweeperAI.run (MinesweeperAI.init height width) probes in
  MinesweeperAI.moves_made ai ⊆ MinesweeperAI.safes ai.
Proof.
  induction probes as [|p probes IH] using rev_ind; [done|].
  unfold MinesweeperAI.run. rewrite foldl_app. simpl.
  by apply moves_in_safes_add_knowledge.
Qed.

(** X11. After any sequence of [add_knowledge] calls on a fresh
    [height] by [width] knowledge base, whatever the counts, every known mine
    is a cell of the board, and so is every known safe cell that is not one
    of the moves made. *)
Theorem known_cells_on_board (height width : Z) (probes : list (Cell * Z)) :
  let ai := MinesweeperAI.run (MinesweeperAI.init height width) probes in
  (∀ c, c ∈ MinesweeperAI.mines ai → in_bounds height width c)
  ∧ (∀ c, c ∈ MinesweeperAI.safes ai ∖ MinesweeperAI.moves_made ai →
          in_bounds height width c).
Proof.
  destruct (on_board_run height width probes) as (_ & Hm & Hs).
  split; [done|].
  intros c [Hc Hnot]%elem_of_difference. by destruct (Hs c Hc).
Qed.

(** X12. After any sequence of [add_knowledge] calls on a fresh knowledge
    base, a move returned by [make_safe_move] is a cell of the board. *)
Theorem make_safe_move_on_board
    (pop : gset Cell → Cell) (height width : Z) (probes : list (Cell * Z))
    (c : Cell) :
  (∀ X, X ≠ ∅ → pop X ∈ X) →
  let ai := MinesweeperAI.run (MinesweeperAI.init height width) probes in
  (MinesweeperAI.make_safe_move pop ai).1 = Some c →
  in_bounds height width c.
Proof.
  intros Hpop ai. unfold MinesweeperAI.make_safe_move.
  case_decide as Hne; simpl; [done|]. intros [= <-].
  destruct (on_board_run height width probes) as (_ & _ & Hs).
  apply Hpop in Hne. apply elem_of_difference in Hne as [Hc Hnot].
  by destruct (Hs _ Hc).
Qed.

Lemma make_safe_move_on_board_witness : in_bounds 1 3 (0, 1).
Proof.
  apply (make_safe_move_on_board pop_first 1 3 [((0, 0), 0)] (0, 1)
           pop_first_elem).
  reflexivity.
Defined.

(** * What the knowledge base knows is true of the board *)

(** X13. Start from a fresh knowledge base for the board [g] and make calls
    that report [g] truthfully.  Then every known mine is a mine of [g], no
    known safe cell is a mine of [g], and every held sentence counts exactly
    the mines of [g] among its cells: its count lies between zero and the
    number of its cells. *)
Theorem knowledge_is_true (g : Minesweeper.t) (probes : list (Cell * Z)) :
  Forall (truthful g) probes →
  let ai := MinesweeperAI.run
              (MinesweeperAI.init (Minesweeper.height g) (Minesweeper.width g))
              probes in
  (∀ c, c ∈ MinesweeperAI.mines ai → hazard g c)
  ∧ (∀ c, c ∈ MinesweeperAI.safes ai → ¬ hazard g c)
  ∧ (∀ s, s ∈ MinesweeperAI.knowledge ai →
          Sentence.count s = hazards_in g (Sentence.cells s)
          ∧ 0 ≤ Sentence.count s ≤ Z.of_nat (size (Sentence.cells s))).
Proof.
  intros Hprobes ai.
  assert (sound g ai) as (_ & _ & Hk & Hm & Hs)
    by (apply sound_run; [apply sound_init | done]).
  split; [done|]. split; [done|].
  intros s Hin. split; [by apply Hk|]. rewrite (Hk s Hin).
  unfold hazards_in. split; [lia|].
  apply inj_le, subseteq_size. intros p. rewrite elem_of_filter. tauto.
Qed.

Lemma knowledge_is_true_witness :
  let ai := MinesweeperAI.run (MinesweeperAI.init 1 5) row_probes in
  (∀ c, c ∈ MinesweeperAI.mines ai → hazard row_board c)
  ∧ (∀ c, c ∈ MinesweeperAI.safes ai → ¬ hazard row_board c)
  ∧ (∀ s, s ∈ MinesweeperAI.knowledge ai →
          Sentence.count s = hazards_in row_board (Sentence.cells s)
          ∧ 0 ≤ Sentence.count s ≤ Z.of_nat (size (Sentence.cells s))).
Proof. exact (knowledge_is_true row_board row_probes row_probes_truthful). Defined.

(** X14. Under truthful calls from a fresh knowledge base, a move returned
    by [make_safe_move] is a cell of the board that holds no mine. *)
Theorem make_safe_move_avoids_mines
    (pop : gset Cell → Cell) (g : Minesweeper.t) (probes : list (Cell * Z))
    (c : Cell) :
  (∀ X, X ≠ ∅ → pop X ∈ X) →
  Forall (truthful g) probes →
  let ai := MinesweeperAI.run
              (MinesweeperAI.init (Minesweeper.height g) (Minesweeper.width g))
              probes in
  (MinesweeperAI.make_safe_move pop ai).1 = Some c →
  in_bounds (Minesweeper.height g) (Minesweeper.width g) c
  ∧ Minesweeper.is_mine g c ≠ Some true.
Proof.
  intros Hpop Hprobes ai. unfold MinesweeperAI.make_safe_move.
  case_decide as Hne; simpl; [done|]. intros [= <-].
  apply Hpop in Hne. apply elem_of_difference in Hne as [Hc Hnot].
  destruct (on_board_run (Minesweeper.height g) (Minesweeper.width g) probes)
    as (_ & _ & Hb).
  assert (sound g ai) as (_ & _ & _ & _ & Hs)
    by (apply sound_run; [apply sound_init | done]).
  assert (in_bounds (Minesweeper.height g) (Minesweeper.width g)
            (pop (MinesweeperAI.safes ai ∖ MinesweeperAI.moves_made ai)))
    as Hin by (by destruct (Hb _ Hc)).
  split; [done|]. intros Hmine. by apply (Hs _ Hc).
Qed.

Lemma make_safe_move_avoids_mines_witness :
  in_bounds 1 5 (0, 4) ∧ Minesweeper.is_mine row_board (0, 4) ≠ Some true.
Proof.
  apply (make_safe_move_avoids_mines pop_first row_board row_probes (0, 4)
           pop_first_elem row_probes_truthful).
  reflexivity.
Defined.

(** Under truthful calls, a safe cell of the board is never a known mine:
    a call made for a safe cell, as the docstring of [add_knowledge] asks,
    finds its cell outside [mines]. *)
Lemma safe_cell_not_known_mine
    (g : Minesweeper.t) (probes : list (Cell * Z)) (cell : Cell) :
  Forall (truthful g) probes →
  Minesweeper.is_mine g cell = Some false →
  cell ∉ MinesweeperAI.mines
           (MinesweeperAI.run
              (MinesweeperAI.init (Minesweeper.height g) (Minesweeper.width g))
              probes).
Proof.
  intros Hprobes Hsafe Hin.
  assert (sound g (MinesweeperAI.run
                     (MinesweeperAI.init (Minesweeper.height g)
                        (Minesweeper.width g)) probes))
    as (_ & _ & _ & Hm & _) by (apply sound_run; [apply sound_init | done]).
  destruct (Hm cell Hin) as [_ Hmine]. congruence.
Qed.



(** In that witness the call for [(0, 0)] with count 1 has made [(0, 1)] a
    known mine, so the call for [(0, 2)] with count 1 builds the sentence
    [{(0, 3)} = 0]. *)
Example added_sentence_on_one_row :
  let ai := MinesweeperAI.run (MinesweeperAI.init 1 5) [((0, 0), 1)] in
  MinesweeperAI.mines ai = {[(0, 1)]}
  ∧ MinesweeperAI.new_sentence (MinesweeperAI.record_move ai (0, 2)) (0, 2) 1
    = Sentence.Build {[(0, 3)]} 0.
Proof. vm_compute. repeat split. Qed.

(** X18. For a knowledge base built from a fresh one by [add_knowledge]
    calls, whatever their counts: when the cell of the next call is not a
    known mine, the count of the sentence that call builds is the supplied
    count less the number of neighbours of the cell on the board that are
    known mines. *)
Theorem added_sentence_count_reachable
    (height width : Z) (probes : list (Cell * Z)) (cell : Cell) (count : Z) :
  let ai := MinesweeperAI.run (MinesweeperAI.init height width) probes in
  cell ∉ MinesweeperAI.mines ai →
  Sentence.count
    (MinesweeperAI.new_sentence (MinesweeperAI.record_move ai cell) cell count)
  = count - Z.of_nat (size (filter (neighbor height width cell)
                              (MinesweeperAI.mines ai))).
Proof.
  intros ai Hcell. rewrite new_sentence_count. simpl.
  destruct (on_board_run height width probes) as (_ & Hm & _).
  do 3 f_equal. apply set_eq; intros p. rewrite !elem_of_filter.
  unfold neighbor. split; [|tauto].
  intros [Ha Hp]. split; [|done]. split; [by apply Hm|].
  split; [|done]. by intros ->.
Qed.

Lemma added_sentence_count_reachable_witness :
  let ai := MinesweeperAI.run (MinesweeperAI.init 1 5) [((0, 2), 1); ((0, 4), 1)] in
  Sentence.count
    (MinesweeperAI.new_sentence (MinesweeperAI.record_move ai (0, 2)) (0, 2) 1)
  = 1 - Z.of_nat (size (filter (neighbor 1 5 (0, 2)) (MinesweeperAI.mines ai))).
Proof.
  apply (added_sentence_count_reachable 1 5 [((0, 2), 1); ((0, 4), 1)] (0, 2) 1).
  vm_compute. discriminate.
Defined.

(** * [make_random_move], [nearby_mines] and [get_enclosed_cells] *)

Lemma elem_of_board_cells (ai : MinesweeperAI.t) (p : Cell) :
  p ∈ MinesweeperAI.board_cells ai
  ↔ in_bounds (MinesweeperAI.height ai) (MinesweeperAI.width ai) p.
Proof.
  unfold MinesweeperAI.board_cells, range, in_bounds.
  rewrite list_elem_of_bind. split.
  - intros (i & (j & ->%list_elem_of_singleton & Hj)%list_elem_of_bind & Hi).
    apply elem_of_seqZ in Hi, Hj. simpl. lia.
  - intros [Hi Hj]. exists p.1. split.
    + apply list_elem_of_bind. exists p.2. split.
      * destruct p. by apply list_elem_of_singleton.
      * apply elem_of_seqZ. lia.
    + apply elem_of_seqZ. lia.
Qed.

Lemma elem_of_all_moves (ai : MinesweeperAI.t) (l : list Cell) acc (p : Cell) :
  p ∈ foldl (MinesweeperAI.all_moves_step ai) acc l
  ↔ p ∈ acc
    ∨ (p ∈ l ∧ (p ∉ MinesweeperAI.mines ai) ∧ (p ∉ MinesweeperAI.moves_made ai)).
Proof.
  revert acc. induction l as [|x l IH]; intros acc; simpl.
  - set_solver.
  - rewrite IH. unfold MinesweeperAI.all_moves_step.
    case_decide; set_solver.
Qed.

(** X15. [make_random_move] returns [None] exactly when every cell of the
    board is a known mine or a move already made; otherwise it returns a cell
    of the board that is neither, whichever element [random.choice] picks.
    A cell that is known safe is not preferred to an unknown one.  The
    knowledge base is the same after the call as before it. *)
Theorem make_random_move_spec
    (choice : gset Cell → Cell) (ai : MinesweeperAI.t) :
  (∀ X, X ≠ ∅ → choice X ∈ X) →
  let r := MinesweeperAI.make_random_move choice ai in
  (r.1 = None
   ↔ ∀ c, in_bounds (MinesweeperAI.height ai) (MinesweeperAI.width ai) c →
          c ∈ MinesweeperAI.mines ai ∨ c ∈ MinesweeperAI.moves_made ai)
  ∧ (∀ c, r.1 = Some c →
          in_bounds (MinesweeperAI.height ai) (MinesweeperAI.width ai) c
          ∧ (c ∉ MinesweeperAI.mines ai) ∧ (c ∉ MinesweeperAI.moves_made ai))
  ∧ r.2 = ai.
Proof.
  intros Hchoice. unfold MinesweeperAI.make_random_move.
  set (all_moves := foldl _ _ _).
  assert (∀ p, p ∈ all_moves
               ↔ in_bounds (MinesweeperAI.height ai) (MinesweeperAI.width ai) p
                 ∧ (p ∉ MinesweeperAI.mines ai)
                 ∧ (p ∉ MinesweeperAI.moves_made ai)) as Hall.
  { intros p. unfold all_moves.
    rewrite elem_of_all_moves, elem_of_board_cells. set_solver. }
  case_decide as Hsize; simpl.
  - apply size_empty_inv, leibniz_equiv in Hsize.
    split; [|by split]. split; [|done]. intros _ c Hc.
    destruct (decide (c ∈ MinesweeperAI.mines ai)); [by left|].
    destruct (decide (c ∈ MinesweeperAI.moves_made ai)); [by right|].
    assert (c ∈ all_moves) as Hin by (by apply Hall).
    rewrite Hsize in Hin. by apply not_elem_of_empty in Hin.
  - assert (all_moves ≠ ∅) as Hne.
    { intros Heq. apply Hsize. rewrite Heq. apply size_empty. }
    apply Hchoice, Hall in Hne.
    split; [|split; [|done]].
    + split; [done|]. intros Hnone.
      destruct Hne as (Hb & Hm & Hv). destruct (Hnone _ Hb); done.
    + by intros c [= <-].
Qed.

Lemma make_random_move_spec_witness :
  let ai := MinesweeperAI.run (MinesweeperAI.init 1 5) row_probes in
  let r := MinesweeperAI.make_random_move pop_first ai in
  (r.1 = None
   ↔ ∀ c, in_bounds (MinesweeperAI.height ai) (MinesweeperAI.width ai) c →
          c ∈ MinesweeperAI.mines ai ∨ c ∈ MinesweeperAI.moves_made ai)
  ∧ (∀ c, r.1 = Some c →
          in_bounds (MinesweeperAI.height ai) (MinesweeperAI.width ai) c
          ∧ (c ∉ MinesweeperAI.mines ai) ∧ (c ∉ MinesweeperAI.moves_made ai))
  ∧ r.2 = ai.
Proof. exact (make_random_move_spec pop_first _ pop_first_elem). Defined.

Lemma length_block (cell : Cell) : length (block cell) = 9%nat.
Proof.
  unfold block, range.
  replace (cell.1 + 2 - (cell.1 - 1)) with 3 by lia.
  replace (cell.2 + 2 - (cell.2 - 1)) with 3 by lia.
  reflexivity.
Qed.

Lemma length_filter_block_lt (P : Cell → Prop) `{!∀ p, Decision (P p)}
    (cell : Cell) :
  ¬ P cell → (length (filter P (block cell)) ≤ 8)%nat.
Proof.
  intros Hcell.
  pose proof (length_filter_lt P (block cell) cell) as Hlt.
  rewrite length_block in Hlt.
  assert (cell ∈ block cell) by (apply elem_of_block; unfold around; lia).
  apply Nat.lt_succ_r, Hlt; done.
Qed.

Lemma is_mine_in_bounds (g : Minesweeper.t) (p : Cell) :
  board_wf g →
  in_bounds (Minesweeper.height g) (Minesweeper.width g) p →
  is_Some (Minesweeper.is_mine g p).
Proof.
  intros [Hrows Hcols] [Hi Hj]. unfold Minesweeper.is_mine, Minesweeper.py_index.
  rewrite decide_True by lia.
  destruct (lookup_lt_is_Some_2 (Minesweeper.board g) (Z.to_nat p.1))
    as [row Hrow]; [lia|].
  rewrite Hrow. simpl. rewrite decide_True by lia.
  apply lookup_lt_is_Some_2.
  rewrite (proj1 (Forall_lookup _ _) Hcols _ _ Hrow). lia.
Qed.

Lemma nearby_fold_total (g : Minesweeper.t) (cell : Cell) (l : list Cell) acc :
  board_wf g → is_Some acc →
  is_Some (foldl (Minesweeper.nearby_step g cell) acc l).
Proof.
  intros Hwf. revert acc. induction l as [|p l IH]; intros acc Hacc; [done|].
  simpl. apply IH. destruct Hacc as [a ->].
  unfold Minesweeper.nearby_step. simpl.
  case_decide; [done|]. case_decide as Hb; [|done].
  destruct (is_mine_in_bounds g p Hwf Hb) as [b ->]. done.
Qed.

(** X16. On a board of the shape [__init__] builds, [nearby_mines] raises
    no [IndexError] for any cell, on the board or off it: it returns the
    number of mines among the cells of the three by three square around the
    cell, the cell itself left out, and that number is at most eight. *)
Theorem nearby_mines_spec (g : Minesweeper.t) (cell : Cell) :
  board_wf g →
  ∃ n, Minesweeper.nearby_mines g cell = Some n
       ∧ n = hazards_in g (list_to_set (block cell) ∖ {[cell]})
       ∧ 0 ≤ n ≤ 8.
Proof.
  intros Hwf.
  destruct (nearby_fold_total g cell (block cell) (Some 0) Hwf) as [n Hn];
    [done|].
  exists n. split; [done|].
  apply nearby_mines_count in Hn.
  assert (length (filter (λ p, p ≠ cell ∧ hazard g p) (block cell)) ≤ 8)%nat
    by (apply length_filter_block_lt; tauto).
  split; [|lia]. rewrite Hn. unfold hazards_in. f_equal.
  rewrite <- (size_list_to_set (C:=gset Cell))
    by apply NoDup_filter, NoDup_block.
  f_equal. apply set_eq; intros p.
  rewrite elem_of_filter, elem_of_difference, !elem_of_list_to_set,
    list_elem_of_filter, elem_of_singleton.
  tauto.
Qed.

Lemma nearby_mines_spec_witness :
  ∃ n, Minesweeper.nearby_mines row_board (0, 1) = Some n
       ∧ n = hazards_in row_board (list_to_set (block (0, 1)) ∖ {[(0, 1)]})
       ∧ 0 ≤ n ≤ 8.
Proof.
  apply (nearby_mines_spec row_board (0, 1)).
  split; [reflexivity|]. repeat constructor.
Defined.

(** X17. [get_enclosed_cells] returns a list without repetitions of at most
    eight cells, each of them a neighbour of the cell on the board, and a
    count that is the supplied count lowered by at most nine. *)
Theorem get_enclosed_cells_bounds
    (ai : MinesweeperAI.t) (cell : Cell) (count : Z) :
  let r := MinesweeperAI.get_enclosed_cells ai cell count in
  NoDup r.1
  ∧ (length r.1 ≤ 8)%nat
  ∧ (∀ p, p ∈ r.1 →
          neighbor (MinesweeperAI.height ai) (MinesweeperAI.width ai) cell p)
  ∧ count - 9 ≤ r.2 ≤ count.
Proof.
  rewrite get_enclosed_cells_eq. simpl.
  split; [apply NoDup_filter, NoDup_block|].
  split; [apply length_filter_block_lt; tauto|]. split.
  - intros p [(Hb & Hne & _) Hp%elem_of_block]%list_elem_of_filter.
    by split.
  - pose proof (length_filter (λ p, p ∈ MinesweeperAI.mines ai) (block cell))
      as Hle.
    rewrite length_block in Hle. lia.
Qed.

(** * [Minesweeper.__init__] and [won] *)
Section new_game.
Variables height width : Z.

Lemma foldl_snoc_replicate {A B : Type} (x : A) (l : list B) (acc : list A) :
  foldl (λ acc _, acc ++ [x]) acc l = acc ++ replicate (length l) x.
Proof.
  revert acc. induction l as [|y l IH]; intros acc; simpl.
  - by rewrite app_nil_r.
  - rewrite IH. by rewrite <- app_assoc.
Qed.

Lemma empty_board_replicate :
  Minesweeper.empty_board height width
  = replicate (Z.to_nat height) (replicate (Z.to_nat width) false).
Proof.
  unfold Minesweeper.empty_board, Minesweeper.empty_row, range.
  rewrite !foldl_snoc_replicate, !length_seqZ. simpl.
  by rewrite !Z.sub_0_r.
Qed.

Lemma is_mine_lookup (board : list (list bool)) (c : Cell) :
  0 ≤ c.1 → 0 ≤ c.2 →
  Minesweeper.is_mine (Minesweeper.Build height width board) c
  = row ← board !! Z.to_nat c.1; row !! Z.to_nat c.2.
Proof.
  intros H1 H2. unfold Minesweeper.is_mine, Minesweeper.py_index. simpl.
  rewrite decide_True by done.
  destruct (board !! Z.to_nat c.1) as [row|]; simpl; [|done].
  by rewrite decide_True.
Qed.

Lemma is_mine_set_mine (board : list (list bool)) (c p : Cell) :
  board_wf (Minesweeper.Build height width board) →
  in_bounds height width c → in_bounds height width p →
  Minesweeper.is_mine
    (Minesweeper.Build height width (Minesweeper.set_mine board c)) p
  = if decide (p = c) then Some true
    else Minesweeper.is_mine (Minesweeper.Build height width board) p.
Proof.
  intros [Hrows Hcols] [Hc1 Hc2] [Hp1 Hp2]. simpl in *.
  rewrite !is_mine_lookup by lia. unfold Minesweeper.set_mine.
  destruct (lookup_lt_is_Some_2 board (Z.to_nat c.1)) as [row Hrow]; [lia|].
  pose proof (proj1 (Forall_lookup _ _) Hcols _ _ Hrow) as Hlen.
  simpl in Hlen.
  destruct (decide (p = c)) as [->|Hne].
  - rewrite list_lookup_alter_eq, Hrow. simpl.
    apply list_lookup_insert_eq. lia.
  - destruct (decide (Z.to_nat c.1 = Z.to_nat p.1)) as [Heq|Hrne].
    + rewrite <- Heq, list_lookup_alter_eq, Hrow. simpl.
      apply list_lookup_insert_ne.
      intros Hcol. apply Hne. destruct p, c; simpl in *. f_equal; lia.
    + by rewrite list_lookup_alter_ne.
Qed.

Lemma board_wf_set_mine (board : list (list bool)) (c : Cell) :
  board_wf (Minesweeper.Build height width board) →
  board_wf (Minesweeper.Build height width (Minesweeper.set_mine board c)).
Proof.
  intros [Hrows Hcols]. unfold Minesweeper.set_mine.
  split; simpl in *; [by rewrite length_alter|].
  apply Forall_alter; [done|]. intros row _ Hrow.
  by rewrite length_insert.
Qed.

Lemma game_wf_empty :
  game_wf (Minesweeper.Game
             (Minesweeper.Build height width
                (Minesweeper.empty_board height width)) ∅ ∅).
Proof.
  rewrite empty_board_replicate. split; [split|]; simpl.
  - apply length_replicate.
  - apply Forall_replicate, length_replicate.
  - intros c. split; [by intros ?%not_elem_of_empty|].
    intros [[H1 H2] Hc]; simpl in *.
    rewrite is_mine_lookup in Hc by lia.
    rewrite lookup_replicate_2 in Hc by lia. simpl in Hc.
    rewrite lookup_replicate_2 in Hc by lia. done.
Qed.

Lemma game_wf_set_mine (board : list (list bool)) (placed : gset Cell) (c : Cell) :
  game_wf (Minesweeper.Game (Minesweeper.Build height width board) placed ∅) →
  in_bounds height width c →
  game_wf (Minesweeper.Game
             (Minesweeper.Build height width (Minesweeper.set_mine board c))
             ({[c]} ∪ placed) ∅).
Proof.
  intros [Hwf Hagree] Hc; simpl in *. split; simpl.
  - by apply board_wf_set_mine.
  - intros p. unfold hazard; simpl. split.
    + intros [->%elem_of_singleton|Hp]%elem_of_union.
      * split; [done|]. rewrite is_mine_set_mine by done.
        by rewrite decide_True.
      * apply Hagree in Hp as [Hb Hp]; simpl in *. split; [done|].
        rewrite is_mine_set_mine by done. by case_decide.
    + intros [Hb Hp]. rewrite is_mine_set_mine in Hp by done.
      case_decide as Hpc; [set_solver|].
      apply elem_of_union; right. apply Hagree. by split.
Qed.

Lemma place_mines_result (mines : Z) (draws : list Cell)
    (board board' : list (list bool)) (placed placed' : gset Cell) :
  game_wf (Minesweeper.Game (Minesweeper.Build height width board) placed ∅) →
  Minesweeper.place_mines height width mines draws board placed
  = Some (board', placed') →
  game_wf (Minesweeper.Game (Minesweeper.Build height width board') placed' ∅)
  ∧ Z.of_nat (size placed') = mines
  ∧ placed ⊆ placed'
  ∧ placed' ⊆ placed ∪ list_to_set draws.
Proof.
  revert board placed. induction draws as [|c draws IH]; intros board placed Hwf;
    simpl; case_decide as Hsize; try done.
  - intros [= <- <-]. split; [done|]. split; [done|]. set_solver.
  - intros [= <- <-]. split; [done|]. split; [done|]. set_solver.
  - case_decide as Hc; [|done].
    destruct (Minesweeper.is_mine _ c) as [[]|] eqn:Hmine; [| |done].
    + intros (? & ? & ? & ?)%IH; [|done].
      split; [done|]. split; [done|]. set_solver.
    + intros (? & ? & ? & ?)%IH; [|by apply game_wf_set_mine].
      split; [done|]. split; [done|]. set_solver.
Qed.

Lemma place_mines_exits (mines : Z) (draws : list Cell)
    (board : list (list bool)) (placed : gset Cell) :
  game_wf (Minesweeper.Game (Minesweeper.Build height width board) placed ∅) →
  Forall (in_bounds height width) draws →
  Z.of_nat (size placed) ≤ mines
  ≤ Z.of_nat (size (placed ∪ list_to_set draws)) →
  is_Some (Minesweeper.place_mines height width mines draws board placed).
Proof.
  intros Hwf Hdraws. revert board placed Hwf.
  induction Hdraws as [|c draws Hc _ IH]; intros board placed Hwf Hsize;
    simpl; case_decide as Hexit; try done.
  - rewrite list_to_set_nil, (right_id_L ∅ (∪)) in Hsize. lia.
  - rewrite decide_True by done.
    destruct (is_mine_in_bounds (Minesweeper.Build height width board) c)
      as [b Hb]; [apply Hwf | done |].
    rewrite Hb. destruct b.
    + assert (c ∈ placed) as Hin by (apply Hwf; by split).
      apply IH; [done|].
      replace (placed ∪ list_to_set (c :: draws))
        with (placed ∪ list_to_set draws) in Hsize by set_solver.
      done.
    + assert (c ∉ placed) as Hnot.
      { intros [_ Hin]%Hwf. simpl in Hin. congruence. }
      apply IH; [by apply game_wf_set_mine|].
      rewrite size_union, size_singleton by set_solver.
      replace ({[c]} ∪ placed ∪ list_to_set draws)
        with (placed ∪ list_to_set (c :: draws)) by set_solver.
      lia.
Qed.

End new_game.

(** X19. When [__init__] returns, for whatever draws [random.randrange]
    gave, the new game has the dimensions asked for and a board of [height]
    rows of [width] entries, exactly [mines] mines, the set [self.mines]
    holds exactly the cells whose board entry is [True], each of them one of
    the cells drawn, and no mine is found yet. *)
Theorem init_result
    (height width mines : Z) (draws : list Cell) (gm : Minesweeper.game) :
  Minesweeper.init height width mines draws = Some gm →
  Minesweeper.height (Minesweeper.grid gm) = height
  ∧ Minesweeper.width (Minesweeper.grid gm) = width
  ∧ board_wf (Minesweeper.grid gm)
  ∧ Z.of_nat (size (Minesweeper.mines gm)) = mines
  ∧ (∀ c, c ∈ Minesweeper.mines gm ↔ hazard (Minesweeper.grid gm) c)
  ∧ Minesweeper.mines gm ⊆ list_to_set draws
  ∧ Minesweeper.mines_found gm = ∅.
Proof.
  unfold Minesweeper.init. intros Hinit.
  destruct (Minesweeper.place_mines _ _ _ _ _ _) as [[board placed]|] eqn:Hp;
    [|done].
  injection Hinit as <-. simpl.
  apply place_mines_result in Hp as ([Hwf Hagree] & Hsize & _ & Hsub);
    [|apply game_wf_empty].
  split; [done|]. split; [done|]. split; [done|]. split; [done|].
  split; [done|]. split; [set_solver | done].
Qed.

Lemma init_result_witness :
  let gm := Minesweeper.Game (Minesweeper.Build 2 3 [[false; true; false];
                                                      [false; false; true]])
              {[(0, 1); (1, 2)]} ∅ in
  Minesweeper.height (Minesweeper.grid gm) = 2
  ∧ Minesweeper.width (Minesweeper.grid gm) = 3
  ∧ board_wf (Minesweeper.grid gm)
  ∧ Z.of_nat (size (Minesweeper.mines gm)) = 2
  ∧ (∀ c, c ∈ Minesweeper.mines gm ↔ hazard (Minesweeper.grid gm) c)
  ∧ Minesweeper.mines gm ⊆ list_to_set [(0, 1); (0, 1); (1, 2); (0, 0)]
  ∧ Minesweeper.mines_found gm = ∅.
Proof.
  intros gm.
  apply (init_result 2 3 2 [(0, 1); (0, 1); (1, 2); (0, 0)] gm).
  vm_compute. reflexivity.
Defined.

(** X20. [__init__] returns as soon as the draws have named [mines]
    different cells of the board: when all draws are cells of the board and
    at least [mines] of them are different, the loop exits within them. *)
Theorem init_returns (height width mines : Z) (draws : list Cell) :
  Forall (in_bounds height width) draws →
  0 ≤ mines ≤ Z.of_nat (size (list_to_set draws : gset Cell)) →
  is_Some (Minesweeper.init height width mines draws).
Proof.
  intros Hdraws Hmines. unfold Minesweeper.init.
  destruct (place_mines_exits height width mines draws
              (Minesweeper.empty_board height width) ∅) as [r ->];
    [apply game_wf_empty | done | | done].
  rewrite size_empty, (left_id_L ∅ (∪)). lia.
Qed.

Lemma init_returns_witness :
  is_Some (Minesweeper.init 2 3 2 [(0, 1); (0, 1); (1, 2); (0, 0)]).
Proof.
  apply init_returns.
  - repeat (constructor; [unfold in_bounds; simpl; lia|]). constructor.
  - vm_compute. split; discriminate.
Defined.

Lemma NoDup_board_cells (ai : MinesweeperAI.t) :
  NoDup (MinesweeperAI.board_cells ai).
Proof.
  unfold MinesweeperAI.board_cells. apply NoDup_bind; [| |apply NoDup_seqZ].
  - intros r1 r2 p _ _
      (c1 & ->%list_elem_of_singleton & _)%list_elem_of_bind
      (c2 & [=]%list_elem_of_singleton & _)%list_elem_of_bind.
    done.
  - intros r _. apply NoDup_bind; [| |apply NoDup_seqZ].
    + intros c1 c2 p _ _ ->%list_elem_of_singleton [=]%list_elem_of_singleton.
      done.
    + intros c _. apply NoDup_singleton.
Qed.

Lemma length_bind_const {A B : Type} (f : A → list B) (n : nat) (l : list A) :
  (∀ x, length (f x) = n) → length (l ≫= f) = (length l * n)%nat.
Proof.
  intros Hf. induction l as [|x l IH]; csimpl; [done|].
  by rewrite length_app, Hf, IH.
Qed.

Lemma length_board_cells (ai : MinesweeperAI.t) :
  length (MinesweeperAI.board_cells ai)
  = (Z.to_nat (MinesweeperAI.height ai) * Z.to_nat (MinesweeperAI.width ai))%nat.
Proof.
  unfold MinesweeperAI.board_cells, range.
  rewrite (length_bind_const _ (Z.to_nat (MinesweeperAI.width ai))).
  - by rewrite length_seqZ, Z.sub_0_r.
  - intros i. rewrite (length_bind_const _ 1%nat) by done.
    rewrite length_seqZ, Z.sub_0_r. lia.
Qed.

Lemma size_in_bounds (height width : Z) (X : gset Cell) :
  (∀ c, c ∈ X → in_bounds height width c) →
  (size X ≤ Z.to_nat height * Z.to_nat width)%nat.
Proof.
  intros HX.
  pose proof (length_board_cells (MinesweeperAI.init height width)) as Hlen.
  simpl in Hlen. rewrite <- Hlen.
  rewrite <- (size_list_to_set (C:=gset Cell)) by apply NoDup_board_cells.
  apply subseteq_size. intros c Hc.
  apply elem_of_list_to_set, elem_of_board_cells. by apply HX.
Qed.

(** X21. [__init__] cannot return when it is asked for a negative number of
    mines or for more mines than the board has cells: whatever the draws, the
    loop [while len(self.mines) != mines] has not exited when they are used
    up. *)
Theorem init_cannot_place
    (height width mines : Z) (draws : list Cell) :
  mines < 0 ∨ Z.of_nat (Z.to_nat height * Z.to_nat width) < mines →
  Minesweeper.init height width mines draws = None.
Proof.
  intros Hmines. unfold Minesweeper.init.
  destruct (Minesweeper.place_mines _ _ _ _ _ _) as [[board placed]|] eqn:Hp;
    [|done].
  apply place_mines_result in Hp as ([Hwf Hagree] & Hsize & _);
    [|apply game_wf_empty].
  simpl in *.
  assert (size placed ≤ Z.to_nat height * Z.to_nat width)%nat.
  { apply size_in_bounds. by intros c [? _]%Hagree. }
  lia.
Qed.

Lemma init_cannot_place_witness :
  Minesweeper.init 1 2 3 [(0, 0); (0, 1); (0, 0); (0, 1)] = None.
Proof. apply init_cannot_place. right. vm_compute. reflexivity. Defined.



(** X23. On a game built by [__init__], [nearby_mines] returns, for any
    cell, the number of cells of [self.mines] that are neighbours of the cell
    on the board. *)
Theorem nearby_mines_counts_mines
    (height width mines : Z) (draws : list Cell) (gm : Minesweeper.game)
    (cell : Cell) :
  Minesweeper.init height width mines draws = Some gm →
  Minesweeper.nearby_mines (Minesweeper.grid gm) cell
  = Some (Z.of_nat (size (filter (neighbor height width cell)
                            (Minesweeper.mines gm)))).
Proof.
  unfold Minesweeper.init. intros Hinit.
  destruct (Minesweeper.place_mines _ _ _ _ _ _) as [[board placed]|] eqn:Hp;
    [|done].
  injection Hinit as <-. simpl.
  apply place_mines_result in Hp as ([Hwf Hagree] & _); [|apply game_wf_empty].
  simpl in *.
  destruct (nearby_fold_total (Minesweeper.Build height width board) cell
              (block cell) (Some 0) Hwf) as [n Hn]; [done|].
  unfold Minesweeper.nearby_mines. rewrite Hn. f_equal.
  apply nearby_mines_count in Hn as ->. f_equal.
  rewrite <- (size_list_to_set (C:=gset Cell))
    by apply NoDup_filter, NoDup_block.
  f_equal. apply set_eq; intros p.
  rewrite elem_of_filter, elem_of_list_to_set, list_elem_of_filter,
    elem_of_block, Hagree.
  unfold neighbor, hazard; simpl. tauto.
Qed.

Lemma nearby_mines_counts_mines_witness :
  let gm := Minesweeper.Game (Minesweeper.Build 2 3 [[false; true; false];
                                                      [false; false; true]])
              {[(0, 1); (1, 2)]} ∅ in
  Minesweeper.nearby_mines (Minesweeper.grid gm) (1, 1)
  = Some (Z.of_nat (size (filter (neighbor 2 3 (1, 1)) (Minesweeper.mines gm)))).
Proof.
  intros gm.
  apply (nearby_mines_counts_mines 2 3 2 [(0, 1); (0, 1); (1, 2); (0, 0)] gm).
  vm_compute. reflexivity.
Defined.

(** * No cell is forgotten *)
Section nothing_forgotten.
Import MinesweeperAI.
Implicit Types (ai : MinesweeperAI.t) (c : Cell).

Lemma foldl_mark_mine_sets ai (l : list Cell) :
  mines (foldl mark_mine ai l) = list_to_set l ∪ mines ai
  ∧ safes (foldl mark_mine ai l) = safes ai.
Proof.
  revert ai. induction l as [|x l IH]; intros ai; simpl.
  - split; [set_solver | done].
  - destruct (IH (mark_mine ai x)) as [-> ->]. simpl. split; [set_solver|done].
Qed.

Lemma foldl_mark_safe_sets ai (l : list Cell) :
  safes (foldl mark_safe ai l) = list_to_set l ∪ safes ai
  ∧ mines (foldl mark_safe ai l) = mines ai.
Proof.
  revert ai. induction l as [|x l IH]; intros ai; simpl.
  - split; [set_solver | done].
  - destruct (IH (mark_safe ai x)) as [-> ->]. simpl. split; [set_solver|done].
Qed.

Lemma foldl_mark_mine_lookup ai (l : list Cell) (i : nat) s :
  knowledge ai !! i = Some s →
  ∃ s', knowledge (foldl mark_mine ai l) !! i = Some s'
        ∧ Sentence.cells s' = Sentence.cells s ∖ list_to_set l.
Proof.
  revert ai s. induction l as [|x l IH]; intros ai s Hs; simpl.
  - exists s. split; [done | set_solver].
  - destruct (IH (mark_mine ai x) (Sentence.mark_mine s x)) as (s' & Hs' & Hc).
    { simpl. by rewrite list_lookup_fmap, Hs. }
    exists s'. split; [done|]. rewrite Hc, mark_mine_cells. set_solver.
Qed.

Lemma foldl_mark_safe_lookup ai (l : list Cell) (i : nat) s :
  knowledge ai !! i = Some s →
  ∃ s', knowledge (foldl mark_safe ai l) !! i = Some s'
        ∧ Sentence.cells s' = Sentence.cells s ∖ list_to_set l.
Proof.
  revert ai s. induction l as [|x l IH]; intros ai s Hs; simpl.
  - exists s. split; [done | set_solver].
  - destruct (IH (mark_safe ai x) (Sentence.mark_safe s x)) as (s' & Hs' & Hc).
    { simpl. by rewrite list_lookup_fmap, Hs. }
    exists s'. split; [done|]. rewrite Hc, mark_safe_cells. set_solver.
Qed.

Lemma accounted_mark_mine ai c x : accounted ai c → accounted (mark_mine ai x) c.
Proof.
  intros [Hc|[Hc|(s & Hs & Hc)]].
  - left. simpl. set_solver.
  - right; left. done.
  - destruct (decide (c = x)) as [->|Hne]; [left; simpl; set_solver|].
    right; right. exists (Sentence.mark_mine s x). split.
    + apply elem_of_knowledge_mark_mine. eauto.
    + rewrite mark_mine_cells. set_solver.
Qed.

Lemma accounted_mark_safe ai c x : accounted ai c → accounted (mark_safe ai x) c.
Proof.
  intros [Hc|[Hc|(s & Hs & Hc)]].
  - left. done.
  - right; left. simpl. set_solver.
  - destruct (decide (c = x)) as [->|Hne]; [right; left; simpl; set_solver|].
    right; right. exists (Sentence.mark_safe s x). split.
    + apply elem_of_knowledge_mark_safe. eauto.
    + rewrite mark_safe_cells. set_solver.
Qed.

(** The cell is a known mine or safe cell, or a cell of a sentence at one
    of the positions [live] of [self.knowledge]. *)
Lemma remove_sures_step_live (st : t * list nat) (i : nat) (rest : list nat)
    c :
  (c ∈ mines st.1 ∨ c ∈ safes st.1
   ∨ ∃ j s, j ∈ st.2 ++ i :: rest ∧ knowledge st.1 !! j = Some s
            ∧ c ∈ Sentence.cells s) →
  let st' := remove_sures_step st i in
  c ∈ mines st'.1 ∨ c ∈ safes st'.1
  ∨ ∃ j s, j ∈ st'.2 ++ rest ∧ knowledge st'.1 !! j = Some s
           ∧ c ∈ Sentence.cells s.
Proof.
  intros Hc. unfold remove_sures_step.
  destruct (knowledge st.1 !! i) as [s0|] eqn:Hs0.
  - destruct (truthy (Sentence.known_mines s0)) eqn:Hm; simpl.
    { apply truthy_known_mines in Hm as (-> & _ & _). simpl.
      rewrite removelast_last.
      destruct (foldl_mark_mine_sets st.1 (elements (Sentence.cells s0)))
        as [-> ->].
      destruct Hc as [Hc|[Hc|(j & s & Hj & Hs & Hc)]];
        [left; set_solver | by right; left |].
      destruct (decide (c ∈ Sentence.cells s0)) as [Hin|Hnot].
      { left. apply elem_of_union; left.
        by apply elem_of_list_to_set, elem_of_elements. }
      right; right.
      destruct (foldl_mark_mine_lookup st.1 (elements (Sentence.cells s0)) j s Hs)
        as (s' & Hs' & Hcells).
      exists j, s'. split; [|split; [done|]].
      - apply elem_of_app in Hj as [Hj|[->|Hj]%elem_of_cons];
          rewrite elem_of_app; auto. congruence.
      - rewrite Hcells. apply elem_of_difference. split; [done|].
        by rewrite elem_of_list_to_set, elem_of_elements. }
    destruct (truthy (Sentence.known_safes s0)) eqn:Hf; simpl.
    { apply truthy_known_safes in Hf as (-> & _ & _). simpl.
      rewrite removelast_last.
      destruct (foldl_mark_safe_sets st.1 (elements (Sentence.cells s0)))
        as [-> ->].
      destruct Hc as [Hc|[Hc|(j & s & Hj & Hs & Hc)]];
        [by left | right; left; set_solver |].
      destruct (decide (c ∈ Sentence.cells s0)) as [Hin|Hnot].
      { right; left. apply elem_of_union; left.
        by apply elem_of_list_to_set, elem_of_elements. }
      right; right.
      destruct (foldl_mark_safe_lookup st.1 (elements (Sentence.cells s0)) j s Hs)
        as (s' & Hs' & Hcells).
      exists j, s'. split; [|split; [done|]].
      - apply elem_of_app in Hj as [Hj|[->|Hj]%elem_of_cons];
          rewrite elem_of_app; auto. congruence.
      - rewrite Hcells. apply elem_of_difference. split; [done|].
        by rewrite elem_of_list_to_set, elem_of_elements. }
    destruct Hc as [Hc|[Hc|(j & s & Hj & Hs & Hc)]]; [by left | by right; left|].
    right; right. exists j, s. split; [|done].
    by rewrite <- app_assoc.
  - simpl.
    destruct Hc as [Hc|[Hc|(j & s & Hj & Hs & Hc)]]; [by left | by right; left|].
    right; right. exists j, s. split; [|done].
    apply elem_of_app in Hj as [Hj|[->|Hj]%elem_of_cons];
      rewrite elem_of_app; auto. congruence.
Qed.

Lemma remove_sures_loop_live (rest : list nat) (st : t * list nat) c :
  (c ∈ mines st.1 ∨ c ∈ safes st.1
   ∨ ∃ j s, j ∈ st.2 ++ rest ∧ knowledge st.1 !! j = Some s
            ∧ c ∈ Sentence.cells s) →
  let st' := foldl remove_sures_step st rest in
  c ∈ mines st'.1 ∨ c ∈ safes st'.1
  ∨ ∃ j s, j ∈ st'.2 ∧ knowledge st'.1 !! j = Some s ∧ c ∈ Sentence.cells s.
Proof.
  revert st. induction rest as [|i rest IH]; intros st Hc; simpl.
  - by rewrite app_nil_r in Hc.
  - apply IH. by apply remove_sures_step_live.
Qed.

Lemma accounted_remove_sures ai c :
  accounted ai c → accounted (remove_sures ai) c.
Proof.
  intros Hc. unfold remove_sures.
  destruct (remove_sures_loop_live (seq 0 (length (knowledge ai))) (ai, []) c)
    as [H|[H|(j & s & Hj & Hs & Hin)]].
  - destruct Hc as [?|[?|(s & Hs & ?)]]; [by left | by right; left|].
    right; right. apply list_elem_of_lookup in Hs as [j Hj].
    exists j, s. split; [|done]. simpl. apply elem_of_seq.
    apply lookup_lt_Some in Hj. lia.
  - by left.
  - by right; left.
  - right; right. exists s. split; [|done]. simpl.
    apply list_elem_of_omap. eauto.
Qed.

Lemma accounted_remove_duplicates ai c :
  accounted ai c → accounted (remove_duplicates ai) c.
Proof.
  intros [?|[?|(s & Hs & ?)]]; [by left | by right; left|].
  right; right. exists s. split; [|done]. simpl.
  apply unique_fold_elem. by right.
Qed.

Lemma accounted_conclusion k ai (l : list nat) c :
  accounted ai c → accounted (foldl (conclusion_step k) ai l) c.
Proof.
  apply (conclusion_preserves (λ a, accounted a c) (λ _, True) (λ _, True));
    try done.
  - intros a x Ha _. by apply accounted_mark_mine.
  - intros a x Ha _. by apply accounted_mark_safe.
Qed.

Lemma accounted_with_new_sentence ai cell count c :
  accounted ai c
  ∨ neighbor (height ai) (width ai) cell c ∨ c = cell →
  accounted (with_new_sentence ai cell count) c.
Proof.
  assert (accounted ai c → accounted (with_new_sentence ai cell count) c)
    as Hold.
  { intros [?|[?|(s & Hs & ?)]];
      [by left | right; left; simpl; set_solver|].
    destruct (decide (c = cell)) as [->|Hne];
      [right; left; simpl; set_solver|].
    right; right. exists (Sentence.mark_safe s cell). split.
    - apply elem_of_knowledge_with_new_sentence. left. eauto.
    - rewrite mark_safe_cells. set_solver. }
  intros [Hc|[(Hb & Hne & Ha)| ->]]; [by apply Hold| |].
  - destruct (decide (c ∈ safes ai)) as [?|Hs];
      [apply Hold; by right; left|].
    destruct (decide (c ∈ mines ai)) as [?|Hm]; [apply Hold; by left|].
    right; right. exists (new_sentence (record_move ai cell) cell count).
    split; [apply elem_of_knowledge_with_new_sentence; by right|].
    apply elem_of_new_sentence. simpl. split; [|by apply elem_of_block].
    split; [done|]. split; [done|]. split; [set_solver | done].
  - right; left. simpl. set_solver.
Qed.

End nothing_forgotten.

(** X24. [remove_sures] forgets no cell: a cell that was a known mine, a
    known safe cell or a cell of a held sentence before the call is one of
    these after it. *)
Theorem remove_sures_forgets_nothing (ai : MinesweeperAI.t) (c : Cell) :
  accounted ai c → accounted (MinesweeperAI.remove_sures ai) c.
Proof. apply accounted_remove_sures. Qed.

Lemma remove_sures_forgets_nothing_witness :
  accounted
    (MinesweeperAI.remove_sures
       (MinesweeperAI.Build 1 5 ∅ ∅ ∅ [Sentence.Build {[(0, 0); (0, 2)]} 2]))
    (0, 2).
Proof.
  apply remove_sures_forgets_nothing.
  right; right. eexists. split; [by left|]. by vm_compute.
Defined.

(** X25. [add_knowledge] forgets no cell and accounts for the whole
    neighbourhood of the move: after the call, the cell of the call, each of
    its neighbours on the board, and every cell that was accounted for
    before, is a known mine, a known safe cell or a cell of a held
    sentence. *)
Theorem add_knowledge_forgets_nothing
    (ai : MinesweeperAI.t) (cell : Cell) (count : Z) (c : Cell) :
  accounted ai c
  ∨ neighbor (MinesweeperAI.height ai) (MinesweeperAI.width ai) cell c
  ∨ c = cell →
  accounted (MinesweeperAI.add_knowledge ai cell count) c.
Proof.
  intros Hc. rewrite add_knowledge_eq. cbv zeta.
  by apply accounted_remove_sures, accounted_remove_duplicates,
    accounted_conclusion, accounted_with_new_sentence.
Qed.

Lemma add_knowledge_forgets_nothing_witness :
  accounted (MinesweeperAI.add_knowledge (MinesweeperAI.init 2 3) (0, 0) 1) (1, 1).
Proof.
  apply add_knowledge_forgets_nothing.
  right; left. vm_compute. repeat split; discriminate.
Defined.
